(** * sqloo: parameterized statement construction for PostgreSQL and SQLite

    A shallow embedding of [src/postgres.js] (the numbered dialect, [$1..$n])
    and of the SQLite adapter (the positional dialect, [?]), followed by the
    properties of the statements they build and of the results they return.

    JavaScript objects are kept as the sequence of their own enumerable
    properties in enumeration order, so that [Object.keys] and
    [Object.values] are the two projections of one association list.  Calls
    into the database driver are the events of a small interaction monad;
    running a program against a driver records the requests it received. *)

From Stdlib Require Import String Ascii List ZArith Lia DecimalString.
From Stdlib Require DecimalNat.
Import ListNotations.
Local Open Scope string_scope.

Set Implicit Arguments.

(** ** JavaScript values *)

(** Scalars that travel as bound parameters and as column values. *)
Inductive value : Type :=
| VUndefined
| VNull
| VBool (b : bool)
| VNum (n : Z)
| VStr (s : string).

(** An object: its own enumerable properties, in enumeration order. *)
Definition obj : Type := list (string * value).
Definition Row : Type := obj.

Definition Object_keys (o : obj) : list string := map fst o.
Definition Object_values (o : obj) : list value := map snd o.

(** [o[k]]: the value of property [k], [undefined] when [o] has none. *)
Fixpoint prop (o : obj) (k : string) : value :=
  match o with
  | [] => VUndefined
  | (k', v) :: o' => if String.eqb k' k then v else prop o' k
  end.

(** Decimal rendering of an array index or parameter number. *)
Definition dec (n : nat) : string := NilZero.string_of_uint (Nat.to_uint n).

(** [ToString], as applied by [+] and by template literals. *)
Definition to_string (v : value) : string :=
  match v with
  | VUndefined => "undefined"
  | VNull => "null"
  | VBool true => "true"
  | VBool false => "false"
  | VNum n => NilZero.string_of_int (Z.to_int n)
  | VStr s => s
  end.

(** [strings[i]] on an array of strings: [undefined] out of range. *)
Definition item (strings : list string) (i : nat) : value :=
  match nth_error strings i with
  | Some s => VStr s
  | None => VUndefined
  end.

(** [xs.map((x, i) => f(i, x))], counting from [i]. *)
Fixpoint mapi_from {A B : Type} (f : nat -> A -> B) (i : nat) (xs : list A) : list B :=
  match xs with
  | [] => []
  | x :: xs' => f i x :: mapi_from f (S i) xs'
  end.

Definition mapi {A B : Type} (f : nat -> A -> B) (xs : list A) : list B :=
  mapi_from f 0 xs.

(** [xs.join(sep)] on an array of strings. *)
Definition join (sep : string) (xs : list string) : string := String.concat sep xs.

(** The [{ sql, values }] object returned by [parseTemplate]. *)
Record Statement : Type := { sql : value; values : list value }.

(** The [{ operation, affected }] object returned by [insert] and [update]. *)
Record OperationResult : Type := { operation : string; affected : value }.

(** The second argument of [insert]: [Array.isArray(data)] tells the cases apart. *)
Inductive InsertData : Type :=
| Single (data : obj)
| Many (data : list obj).

(** An argument as a call passes it, whatever the parameter was meant for. *)
Inductive jsarg : Type :=
| ArgString (s : string)
| ArgObject (o : obj)
| ArgArray (a : list obj).

(** ** Failures and driver interaction *)

Inductive error : Type :=
| TypeError
| RangeError
| DriverError (detail : string).

Inductive outcome (A : Type) : Type :=
| Returned (a : A)
| Thrown (e : error).
Arguments Thrown {A} e.

(** A driver interface: the requests it accepts and what each one answers. *)
Record Signature : Type := { Req : Type; Resp : Req -> Type }.

(** An asynchronous function body: it returns, throws, or awaits a driver
    call and continues with the answer. *)
Inductive Prog (Sig : Signature) (A : Type) : Type :=
| Ret (a : A)
| Throw (e : error)
| Call (r : Req Sig) (k : Resp Sig r -> Prog Sig A).
Arguments Ret {Sig A} a.
Arguments Throw {Sig A} e.
Arguments Call {Sig A} r k.

Fixpoint bind {Sig : Signature} {A B : Type} (p : Prog Sig A) (f : A -> Prog Sig B)
  : Prog Sig B :=
  match p with
  | Ret a => f a
  | Throw e => Throw e
  | Call r k => Call r (fun x => bind (k x) f)
  end.

Notation "x <- p ;; q" := (bind p (fun x => q))
  (at level 61, p at next level, right associativity).

(** A driver: a backend state and its (possibly failing) answer to a request. *)
Record Driver (Sig : Signature) : Type := {
  backend : Type;
  serve : backend -> forall r : Req Sig, backend * outcome (Resp Sig r)
}.

(** What one call of an operation did: the backend it left, the requests the
    driver received, in order, and how the call ended. *)
Record Run (S R A : Type) : Type := {
  final : S;
  requests : list R;
  result : outcome A
}.

Fixpoint exec {Sig : Signature} {A : Type} (d : Driver Sig) (p : Prog Sig A)
  (s : backend d) : Run (backend d) (Req Sig) A :=
  match p with
  | Ret a => {| final := s; requests := []; result := Returned a |}
  | Throw e => {| final := s; requests := []; result := Thrown e |}
  | Call r k =>
      match serve d s r with
      | (s', Returned x) =>
          let run := exec d (k x) s' in
          {| final := final run; requests := r :: requests run; result := result run |}
      | (s', Thrown e) =>
          {| final := s'; requests := [r]; result := Thrown e |}
      end
  end.

(** [Object.keys(x)] where [x] may be [undefined] (an array read out of
    range): a [TypeError] in that case. *)
Definition keys_of {Sig : Signature} (x : option obj) : Prog Sig (list string) :=
  match x with
  | Some o => Ret (Object_keys o)
  | None => Throw TypeError
  end.

(** ** The numbered dialect: [src/postgres.js] *)

Module Postgres.

(** [client.query(text, values)] of the pool. *)
Record Query : Type := { text : value; params : list value }.

(** The driver's result object, as far as the code reads it. *)
Record QueryResult : Type := { rows : list Row; rowCount : value }.

Definition pg : Signature := {| Req := Query; Resp := fun _ => QueryResult |}.

Definition client_query (q : value) (vs : list value) : Prog pg QueryResult :=
  Call (Sig := pg) {| text := q; params := vs |} (fun r => Ret r).

Definition insert (table : string) (data : InsertData) : Prog pg OperationResult :=
  match data with
  | Many data =>
      keys <- keys_of (nth_error data 0) ;;
      let placeholders :=
        join ", "
          (mapi (fun i _ =>
                   "(" ++ join ", "
                            (mapi (fun j _ => "$" ++ dec (i * List.length keys + j + 1)) keys)
                       ++ ")")
                data) in
      let query :=
        "INSERT INTO " ++ table ++ " (" ++ join ", " keys ++ ") VALUES " ++ placeholders in
      let values := fold_left (fun acc row => (acc ++ Object_values row)%list) data [] in
      result <- client_query (VStr query) values ;;
      Ret {| operation := "insert"; affected := rowCount result |}
  | Single data =>
      let keys := Object_keys data in
      let values := Object_values data in
      let placeholders := join ", " (mapi (fun i _ => "$" ++ dec (i + 1)) keys) in
      let query :=
        "INSERT INTO " ++ table ++ " (" ++ join ", " keys ++ ") VALUES (" ++ placeholders ++ ")" in
      result <- client_query (VStr query) values ;;
      Ret {| operation := "insert"; affected := rowCount result |}
  end.

Definition get (table : string) (where_ : obj) : Prog pg QueryResult :=
  let keys := Object_keys where_ in
  let values := Object_values where_ in
  let whereClause := join " AND " (mapi (fun i key => key ++ " = $" ++ dec (i + 1)) keys) in
  let query := "SELECT * FROM " ++ table ++ " WHERE " ++ whereClause in
  client_query (VStr query) values.

Definition update (table : string) (where_ data : obj) : Prog pg OperationResult :=
  let keys := Object_keys data in
  let values := Object_values data in
  let setClause := join ", " (mapi (fun i key => key ++ " = $" ++ dec (i + 1)) keys) in
  let whereKeys := Object_keys where_ in
  let whereValues := Object_values where_ in
  let whereClause :=
    join " AND "
      (mapi (fun i key => key ++ " = $" ++ dec (i + 1 + List.length values)) whereKeys) in
  let sql := "UPDATE " ++ table ++ " SET " ++ setClause ++ " WHERE " ++ whereClause in
  result <- client_query (VStr sql) (values ++ whereValues)%list ;;
  Ret {| operation := "update"; affected := rowCount result |}.

(** The closures made by [table]: in [const insert = (data) => insert(table, data)]
    the name called in the body is the closure being defined, so each call
    re-enters the same closure with [table] as its argument; [stack] is the
    number of frames the engine still has. *)
Fixpoint table_insert (stack : nat) (table : string) (data : jsarg)
  : Prog pg OperationResult :=
  match stack with
  | 0 => Throw RangeError
  | S stack' => table_insert stack' table (ArgString table)
  end.

Fixpoint table_get (stack : nat) (table : string) (data : jsarg)
  : Prog pg QueryResult :=
  match stack with
  | 0 => Throw RangeError
  | S stack' => table_get stack' table (ArgString table)
  end.

Fixpoint table_list (stack : nat) (table : string) (data : jsarg)
  : Prog pg QueryResult :=
  match stack with
  | 0 => Throw RangeError
  | S stack' => table_list stack' table (ArgString table)
  end.

Record Bound : Type := {
  bound_insert : jsarg -> Prog pg OperationResult;
  bound_get : jsarg -> Prog pg QueryResult;
  bound_list : jsarg -> Prog pg QueryResult
}.

Definition table (stack : nat) (table : string) : Bound :=
  {| bound_insert := table_insert stack table;
     bound_get := table_get stack table;
     bound_list := table_list stack table |}.

(** The loop of [parseTemplate], entered at index [i] with [vars] holding
    [vars[i..]]. *)
Fixpoint parseTemplate_loop (strings : list string) (vars : list value) (i : nat)
  (sql : value) (values : list value) : Statement :=
  match vars with
  | [] => {| sql := sql; values := values |}
  | v :: vars' =>
      parseTemplate_loop strings vars' (S i)
        (VStr (to_string sql ++ ("$" ++ dec (i + 1)) ++ to_string (item strings (i + 1))))
        (values ++ [v])%list
  end.

Definition parseTemplate (strings : list string) (vars : list value) : Statement :=
  parseTemplate_loop strings vars 0 (item strings 0) [].

(** [result.rows[0][0]]: reading a property of [undefined] throws. *)
Definition pluck (strings : list string) (vars : list value) : Prog pg value :=
  let st := parseTemplate strings vars in
  result <- client_query (sql st) (values st) ;;
  match nth_error (rows result) 0 with
  | Some row => Ret (prop row (dec 0))
  | None => Throw TypeError
  end.

Definition single (strings : list string) (vars : list value) : Prog pg (option Row) :=
  let st := parseTemplate strings vars in
  result <- client_query (sql st) (values st) ;;
  Ret (nth_error (rows result) 0).

Definition many (strings : list string) (vars : list value) : Prog pg (list Row) :=
  let st := parseTemplate strings vars in
  result <- client_query (sql st) (values st) ;;
  Ret (rows result).

Definition execute (strings : list string) (vars : list value) : Prog pg QueryResult :=
  let st := parseTemplate strings vars in
  client_query (sql st) (values st).

(** [list] is declared last in the module: below it the name no longer
    denotes the type of lists. *)
Definition list (table : string) (where_ : obj) : Prog pg QueryResult :=
  let keys := Object_keys where_ in
  let values := Object_values where_ in
  let whereClause := join " AND " (mapi (fun i key => key ++ " = $" ++ dec (i + 1)) keys) in
  let query := "SELECT * FROM " ++ table ++ " WHERE " ++ whereClause in
  client_query (VStr query) values.

End Postgres.

(** ** The positional dialect: the SQLite adapter *)

Module Sqlite.

(** How a statement method receives its bound values: [m(...values)] or
    [m(values)]. *)
Inductive bindargs : Type :=
| Spread (vs : list value)
| Packed (vs : list value).

(** The statement method that ends the chain [client.prepare(sql)...]. *)
Inductive method : Type := MRun | MGet | MAll | MPluckGet.

(** One chained driver expression: [client.prepare(source)], optionally
    [.pluck()], then [.run], [.get] or [.all] on the bound values. *)
Record Prepared : Type := { source : value; how : method; args : bindargs }.

Record RunInfo : Type := { changes : value }.

Definition answer (r : Prepared) : Type :=
  match how r with
  | MRun => RunInfo
  | MGet => option Row
  | MAll => list Row
  | MPluckGet => value
  end.

Definition sqlite : Signature := {| Req := Prepared; Resp := answer |}.

Definition prepared (q : value) (m : method) (a : bindargs)
  : Prog sqlite (answer {| source := q; how := m; args := a |}) :=
  Call (Sig := sqlite) {| source := q; how := m; args := a |} (fun r => Ret r).

Definition insert (table : string) (data : InsertData) : Prog sqlite OperationResult :=
  built <-
    match data with
    | Many data =>
        keys <- keys_of (nth_error data 0) ;;
        let placeholders :=
          join ", " (map (fun _ => "(" ++ join ", " (map (fun _ => "?") keys) ++ ")") data) in
        let query :=
          "INSERT INTO " ++ table ++ " (" ++ join ", " keys ++ ") VALUES " ++ placeholders in
        let values := fold_left (fun acc row => (acc ++ Object_values row)%list) data [] in
        Ret (query, values)
    | Single data =>
        let keys := Object_keys data in
        let placeholders := join ", " (map (fun _ => "?") keys) in
        let query :=
          "INSERT INTO " ++ table ++ " (" ++ join ", " keys ++ ") VALUES (" ++ placeholders ++ ")" in
        let values := Object_values data in
        Ret (query, values)
    end ;;
  let '(query, values) := built in
  result <- prepared (VStr query) MRun (Spread values) ;;
  Ret {| operation := "insert"; affected := changes result |}.

Definition get (table : string) (where_ : obj) : Prog sqlite (option Row) :=
  let keys := Object_keys where_ in
  let values := Object_values where_ in
  let whereClause := join " and " (map (fun key => key ++ " = ?") keys) in
  let query := "select * from " ++ table ++ " where " ++ whereClause in
  prepared (VStr query) MGet (Spread values).

Definition update (table : string) (where_ data : obj) : Prog sqlite OperationResult :=
  let keys := Object_keys data in
  let values := Object_values data in
  let setClause := join ", " (mapi (fun index key => key ++ " = ?") keys) in
  let whereKeys := Object_keys where_ in
  let whereValues := Object_values where_ in
  let whereClause := join " AND " (mapi (fun index key => key ++ " = ?") whereKeys) in
  let sql := "UPDATE " ++ table ++ " SET " ++ setClause ++ " WHERE " ++ whereClause in
  result <- prepared (VStr sql) MRun (Packed (values ++ whereValues)%list) ;;
  Ret {| operation := "update"; affected := changes result |}.

(** The closures made by [table]: in [const insert = (data) => insert(table, data)]
    the name called in the body is the closure being defined, so each call
    re-enters the same closure with [table] as its argument; [stack] is the
    number of frames the engine still has. *)
Fixpoint table_insert (stack : nat) (table : string) (data : jsarg)
  : Prog sqlite OperationResult :=
  match stack with
  | 0 => Throw RangeError
  | S stack' => table_insert stack' table (ArgString table)
  end.

Fixpoint table_get (stack : nat) (table : string) (data : jsarg)
  : Prog sqlite (option Row) :=
  match stack with
  | 0 => Throw RangeError
  | S stack' => table_get stack' table (ArgString table)
  end.

Fixpoint table_list (stack : nat) (table : string) (data : jsarg)
  : Prog sqlite (list Row) :=
  match stack with
  | 0 => Throw RangeError
  | S stack' => table_list stack' table (ArgString table)
  end.

Record Bound : Type := {
  bound_insert : jsarg -> Prog sqlite OperationResult;
  bound_get : jsarg -> Prog sqlite (option Row);
  bound_list : jsarg -> Prog sqlite (list Row)
}.

Definition table (stack : nat) (table : string) : Bound :=
  {| bound_insert := table_insert stack table;
     bound_get := table_get stack table;
     bound_list := table_list stack table |}.

Fixpoint parseTemplate_loop (strings : list string) (vars : list value) (i : nat)
  (sql : value) (values : list value) : Statement :=
  match vars with
  | [] => {| sql := sql; values := values |}
  | v :: vars' =>
      parseTemplate_loop strings vars' (S i)
        (VStr (to_string sql ++ "?" ++ to_string (item strings (i + 1))))
        (values ++ [v])%list
  end.

Definition parseTemplate (strings : list string) (vars : list value) : Statement :=
  parseTemplate_loop strings vars 0 (item strings 0) [].

Definition pluck (strings : list string) (vars : list value) : Prog sqlite value :=
  let st := parseTemplate strings vars in
  prepared (sql st) MPluckGet (Packed (values st)).

Definition single (strings : list string) (vars : list value) : Prog sqlite (option Row) :=
  let st := parseTemplate strings vars in
  prepared (sql st) MGet (Packed (values st)).

Definition many (strings : list string) (vars : list value) : Prog sqlite (list Row) :=
  let st := parseTemplate strings vars in
  prepared (sql st) MAll (Packed (values st)).

Definition execute (strings : list string) (vars : list value) : Prog sqlite RunInfo :=
  let st := parseTemplate strings vars in
  prepared (sql st) MRun (Packed (values st)).

(** [list] is declared last in the module: below it the name no longer
    denotes the type of lists. *)
Definition list (table : string) (where_ : obj) : Prog sqlite (list Row) :=
  let keys := Object_keys where_ in
  let values := Object_values where_ in
  let whereClause := join " and " (map (fun key => key ++ " = ?") keys) in
  let query := "select * from " ++ table ++ " where " ++ whereClause in
  prepared (VStr query) MAll (Spread values).

End Sqlite.

(** ** Statements as the specification words them *)

(** The two placeholder styles, by zero-based position. *)
Definition numbered (i : nat) : string := "$" ++ dec (i + 1).
Definition positional (_ : nat) : string := "?".

(** The fragments [F[i+1], F[i+2], ...], each preceded by the placeholder of
    its position. *)
Fixpoint weave (placeholder : nat -> string) (i : nat) (rest : list string) : string :=
  match rest with
  | [] => ""
  | f :: rest' => placeholder i ++ f ++ weave placeholder (S i) rest'
  end.

(** [F[0]] followed by the woven rest. *)
Definition interleaved (placeholder : nat -> string) (F : list string) : string :=
  match F with
  | [] => ""
  | f0 :: rest => f0 ++ weave placeholder 0 rest
  end.

(** How often the character [c] occurs in a string, and in all of a list. *)
Fixpoint occurrences (c : ascii) (s : string) : nat :=
  match s with
  | EmptyString => 0
  | String a s' => (if Ascii.eqb a c then 1 else 0) + occurrences c s'
  end.

Definition occurrences_in (c : ascii) (F : list string) : nat :=
  list_sum (map (occurrences c) F).

(** One parenthesised group of placeholder tokens. *)
Definition group (tokens : list string) : string := "(" ++ join ", " tokens ++ ")".

(** An INSERT over the given columns with one placeholder group per row. *)
Definition insert_text (table : string) (columns : list string) (groups : list (list string))
  : string :=
  "INSERT INTO " ++ table ++ " (" ++ join ", " columns ++ ") VALUES "
    ++ join ", " (map group groups).

(** [n] groups of [k] placeholders: row [i], column [j] holds the placeholder
    of position [i*k+j] in the numbered style, and [?] in the positional one. *)
Definition numbered_groups (n k : nat) : list (list string) :=
  map (fun i => map (fun j => numbered (i * k + j)) (seq 0 k)) (seq 0 n).

Definition positional_groups (n k : nat) : list (list string) :=
  repeat (repeat "?" k) n.

(** [key = placeholder] for each key, the placeholders drawn from one
    counter that stands at [start]. *)
Fixpoint assign (placeholder : nat -> string) (start : nat) (keys : list string)
  : list string :=
  match keys with
  | [] => []
  | key :: keys' => (key ++ " = " ++ placeholder start) :: assign placeholder (S start) keys'
  end.

(** An UPDATE with the given assignments and conditions. *)
Definition update_text (table : string) (assignments conditions : list string) : string :=
  "UPDATE " ++ table ++ " SET " ++ join ", " assignments
    ++ " WHERE " ++ join " AND " conditions.

(** ** Drivers to run the operations against *)

(** A pool whose every query succeeds with the rows [found] and the count
    [count]. *)
Definition pg_yielding (found : list Row) (count : value) : Driver Postgres.pg :=
  {| backend := unit;
     serve := fun s (r : Req Postgres.pg) =>
       (s, Returned {| Postgres.rows := found; Postgres.rowCount := count |}
             : outcome (Resp Postgres.pg r)) |}.

(** The first column of a row, as a plucked statement reports it. *)
Definition first_column (row : Row) : value :=
  match row with
  | [] => VUndefined
  | (_, v) :: _ => v
  end.

(** What a statement that yields the rows [found] and changes [count] rows
    answers to each method: [run] the change count, [get] the first row or
    [undefined], [all] every row, a plucked [get] the first column of the
    first row or [undefined]. *)
Definition sqlite_answer (found : list Row) (count : value) (r : Sqlite.Prepared)
  : Sqlite.answer r :=
  match r as r0 return Sqlite.answer r0 with
  | {| Sqlite.source := q; Sqlite.how := m; Sqlite.args := a |} =>
      match m as m0
        return Sqlite.answer {| Sqlite.source := q; Sqlite.how := m0; Sqlite.args := a |}
      with
      | Sqlite.MRun => {| Sqlite.changes := count |}
      | Sqlite.MGet => nth_error found 0
      | Sqlite.MAll => found
      | Sqlite.MPluckGet =>
          match found with
          | [] => VUndefined
          | row :: _ => first_column row
          end
      end
  end.

Definition sqlite_yielding (found : list Row) (count : value) : Driver Sqlite.sqlite :=
  {| backend := unit;
     serve := fun s (r : Req Sqlite.sqlite) =>
       (s, Returned (sqlite_answer found count r : Resp Sqlite.sqlite r)) |}.



(** ** Templates of any shape *)

(** The text that [n] rounds of the loop append from position [i] on, reading
    each fragment as the array gives it. *)
Fixpoint weave_items (placeholder : nat -> string) (strings : list string) (i n : nat)
  : string :=
  match n with
  | 0 => ""
  | S n' =>
      placeholder i ++ to_string (item strings (i + 1))
        ++ weave_items placeholder strings (S i) n'
  end.

(** ** Placeholders against bound values *)

(** The values a statement method binds, however they were passed. *)
Definition bound_values (a : Sqlite.bindargs) : list value :=
  match a with
  | Sqlite.Spread vs => vs
  | Sqlite.Packed vs => vs
  end.

(** A request is balanced when its text holds as many placeholder characters
    as it binds values. *)
Definition pg_balanced (q : Postgres.Query) : bool :=
  match Postgres.text q with
  | VStr t => Nat.eqb (occurrences "$" t) (List.length (Postgres.params q))
  | _ => false
  end.

Definition sqlite_balanced (q : Sqlite.Prepared) : bool :=
  match Sqlite.source q with
  | VStr t => Nat.eqb (occurrences "?" t) (List.length (bound_values (Sqlite.args q)))
  | _ => false
  end.

(** An identifier that holds neither placeholder character. *)
Definition marker_free (s : string) : bool :=
  Nat.eqb (occurrences "$" s) 0 && Nat.eqb (occurrences "?" s) 0.

(** * Properties *)

(** ** Strings and decimal numerals *)

Lemma append_assoc (a b c : string) : (a ++ b) ++ c = a ++ b ++ c.
Proof.
  induction a as [|x a IH]; simpl; [reflexivity | now rewrite IH].
Qed.

Lemma append_nil_r (a : string) : a ++ "" = a.
Proof.
  induction a as [|x a IH]; simpl; [reflexivity | now rewrite IH].
Qed.

Lemma occurrences_append (c : ascii) (a b : string) :
  occurrences c (a ++ b) = occurrences c a + occurrences c b.
Proof.
  induction a as [|x a IH]; simpl; [reflexivity | rewrite IH; lia].
Qed.

Lemma occurrences_digits (c : ascii) (d : Decimal.uint) :
  (forall x, In x (list_ascii_of_string "0123456789") -> Ascii.eqb x c = false) ->
  occurrences c (NilEmpty.string_of_uint d) = 0.
Proof.
  intros Hc.
  induction d; cbn [occurrences NilEmpty.string_of_uint]; try reflexivity;
    (rewrite IHd, Hc; [reflexivity | simpl; auto 12]).
Qed.

Lemma occurrences_dec (c : ascii) (n : nat) :
  (forall x, In x (list_ascii_of_string "0123456789") -> Ascii.eqb x c = false) ->
  occurrences c (dec n) = 0.
Proof.
  intros Hc. unfold dec, NilZero.string_of_uint.
  destruct (Nat.to_uint n) eqn:E; try (rewrite <- E; now apply occurrences_digits).
  cbn [occurrences]. rewrite Hc; [reflexivity | simpl; auto].
Qed.

Lemma dollar_not_digit :
  forall x, In x (list_ascii_of_string "0123456789") -> Ascii.eqb x "$" = false.
Proof.
  simpl. intros x H.
  repeat (destruct H as [<- | H]; [reflexivity|]). contradiction.
Qed.

Lemma occurrences_numbered (i : nat) : occurrences "$" (numbered i) = 1.
Proof.
  unfold numbered. rewrite occurrences_append, occurrences_dec by apply dollar_not_digit.
  reflexivity.
Qed.

Lemma occurrences_weave (c : ascii) (placeholder : nat -> string) :
  (forall i, occurrences c (placeholder i) = 1) ->
  forall rest i,
    occurrences c (weave placeholder i rest) = List.length rest + occurrences_in c rest.
Proof.
  intros Hph rest.
  induction rest as [|f rest IH]; intros i; [reflexivity|].
  cbn [weave]. rewrite !occurrences_append, Hph, IH.
  unfold occurrences_in. simpl. lia.
Qed.

Lemma occurrences_interleaved (c : ascii) (placeholder : nat -> string) :
  (forall i, occurrences c (placeholder i) = 1) ->
  forall F n,
    List.length F = n + 1 ->
    occurrences c (interleaved placeholder F) = n + occurrences_in c F.
Proof.
  intros Hph [|f0 rest] n Hlen; simpl in Hlen; [lia|].
  cbn [interleaved]. rewrite occurrences_append, occurrences_weave by exact Hph.
  unfold occurrences_in. simpl. lia.
Qed.

(** ** The template parameterizer *)

(** Loop invariant of the numbered [parseTemplate]: with [pre] the fragments
    already consumed and [rest] those still to come, the loop appends the
    woven [rest] to the text and the remaining variables to the values. *)
Lemma pg_parseTemplate_loop_spec :
  forall vars i pre rest s acc,
    List.length pre = i + 1 ->
    List.length rest = List.length vars ->
    Postgres.parseTemplate_loop (pre ++ rest) vars i (VStr s) acc
    = {| sql := VStr (s ++ weave numbered i rest); values := (acc ++ vars)%list |}.
Proof.
  induction vars as [|v vars IH]; intros i pre rest s acc Hpre Hrest;
    destruct rest as [|f rest]; simpl in Hrest; try discriminate.
  - simpl. now rewrite append_nil_r, app_nil_r.
  - cbn [Postgres.parseTemplate_loop weave]. unfold item.
    rewrite nth_error_app2 by lia.
    replace (i + 1 - List.length pre) with 0 by lia. cbn [nth_error to_string].
    replace (pre ++ f :: rest)%list with ((pre ++ [f]) ++ rest)%list
      by (now rewrite <- app_assoc).
    rewrite IH by (rewrite ?length_app; simpl; lia).
    unfold numbered at 2. now rewrite !append_assoc, <- app_assoc.
Qed.

Lemma sqlite_parseTemplate_loop_spec :
  forall vars i pre rest s acc,
    List.length pre = i + 1 ->
    List.length rest = List.length vars ->
    Sqlite.parseTemplate_loop (pre ++ rest) vars i (VStr s) acc
    = {| sql := VStr (s ++ weave positional i rest); values := (acc ++ vars)%list |}.
Proof.
  induction vars as [|v vars IH]; intros i pre rest s acc Hpre Hrest;
    destruct rest as [|f rest]; simpl in Hrest; try discriminate.
  - simpl. now rewrite append_nil_r, app_nil_r.
  - cbn [Sqlite.parseTemplate_loop weave]. unfold item.
    rewrite nth_error_app2 by lia.
    replace (i + 1 - List.length pre) with 0 by lia. cbn [nth_error to_string].
    replace (pre ++ f :: rest)%list with ((pre ++ [f]) ++ rest)%list
      by (now rewrite <- app_assoc).
    rewrite IH by (rewrite ?length_app; simpl; lia).
    unfold positional at 2. now rewrite !append_assoc, <- app_assoc.
Qed.

Lemma pg_parseTemplate_spec (F : list string) (V : list value) :
  List.length F = List.length V + 1 ->
  Postgres.parseTemplate F V = {| sql := VStr (interleaved numbered F); values := V |}.
Proof.
  intros Hlen. destruct F as [|f0 rest]; simpl in Hlen; [lia|].
  unfold Postgres.parseTemplate. cbn [item nth_error interleaved].
  apply (pg_parseTemplate_loop_spec V 0 [f0] rest f0 []); simpl; lia.
Qed.

Lemma sqlite_parseTemplate_spec (F : list string) (V : list value) :
  List.length F = List.length V + 1 ->
  Sqlite.parseTemplate F V = {| sql := VStr (interleaved positional F); values := V |}.
Proof.
  intros Hlen. destruct F as [|f0 rest]; simpl in Hlen; [lia|].
  unfold Sqlite.parseTemplate. cbn [item nth_error interleaved].
  apply (sqlite_parseTemplate_loop_spec V 0 [f0] rest f0 []); simpl; lia.
Qed.

(** C1.  For fragments [F] and values [V] with [len(F) = len(V)+1],
    [parseTemplate] of either dialect returns [V] unchanged as [values] and,
    as [sql], [F[0]] followed for each position [i] by that position's
    placeholder ([$(i+1)], or [?]) and then [F[i+1]].  The placeholder
    character therefore occurs exactly [len(V)] times more in [sql] than in
    the fragments themselves, and with no values the result is [F[0]] and
    the empty array. *)
Theorem parseTemplate_interleaves (F : list string) (V : list value) :
  List.length F = List.length V + 1 ->
  (Postgres.parseTemplate F V = {| sql := VStr (interleaved numbered F); values := V |}
   /\ occurrences "$" (interleaved numbered F) = List.length V + occurrences_in "$" F)
  /\ (Sqlite.parseTemplate F V = {| sql := VStr (interleaved positional F); values := V |}
      /\ occurrences "?" (interleaved positional F) = List.length V + occurrences_in "?" F)
  /\ (V = [] ->
      Postgres.parseTemplate F V = {| sql := VStr (hd "" F); values := [] |}
      /\ Sqlite.parseTemplate F V = {| sql := VStr (hd "" F); values := [] |}).
Proof.
  intros Hlen. repeat split.
  - now apply pg_parseTemplate_spec.
  - apply occurrences_interleaved; [exact occurrences_numbered | exact Hlen].
  - now apply sqlite_parseTemplate_spec.
  - apply occurrences_interleaved; [reflexivity | exact Hlen].
  - subst V. destruct F as [|f0 [|f1 rest]]; simpl in Hlen; try lia. reflexivity.
  - subst V. destruct F as [|f0 [|f1 rest]]; simpl in Hlen; try lia. reflexivity.
Qed.

Lemma parseTemplate_interleaves_witness :
  List.length ["select * from t where a = "; " and b = "; ""]
  = List.length [VNum 7; VStr "x"] + 1
  /\ Postgres.parseTemplate ["select * from t where a = "; " and b = "; ""] [VNum 7; VStr "x"]
  = {| sql := VStr "select * from t where a = $1 and b = $2";
       values := [VNum 7; VStr "x"] |}
  /\ Sqlite.parseTemplate ["select * from t where a = "; " and b = "; ""] [VNum 7; VStr "x"]
     = {| sql := VStr "select * from t where a = ? and b = ?";
          values := [VNum 7; VStr "x"] |}.
Proof.
  pose proof (parseTemplate_interleaves
                ["select * from t where a = "; " and b = "; ""] [VNum 7; VStr "x"]
                eq_refl) as [[Hpg _] [[Hlite _] _]].
  split; [reflexivity|]. split; [exact Hpg | exact Hlite].
Defined.

(** ** Indexed maps, folds and groups *)

Section ListFacts.

Context {A B : Type}.

Lemma mapi_from_ext (f g : nat -> A -> B) :
  (forall i x, f i x = g i x) ->
  forall xs n, mapi_from f n xs = mapi_from g n xs.
Proof.
  intros Hfg xs. induction xs as [|x xs IH]; intros n; simpl; [reflexivity|].
  now rewrite Hfg, IH.
Qed.

Lemma mapi_from_index (g : nat -> B) :
  forall (xs : list A) n,
    mapi_from (fun i _ => g i) n xs = map g (seq n (List.length xs)).
Proof.
  induction xs as [|x xs IH]; intros n; simpl; [reflexivity|].
  now rewrite IH.
Qed.

Lemma map_constant (c : B) :
  forall xs : list A, map (fun _ => c) xs = repeat c (List.length xs).
Proof.
  induction xs as [|x xs IH]; simpl; [reflexivity | now rewrite IH].
Qed.

Lemma reduce_concat (f : A -> list B) :
  forall xs acc,
    fold_left (fun acc x => (acc ++ f x)%list) xs acc = (acc ++ concat (map f xs))%list.
Proof.
  induction xs as [|x xs IH]; intros acc; simpl.
  - now rewrite app_nil_r.
  - now rewrite IH, <- app_assoc.
Qed.

End ListFacts.

Lemma mapi_from_assign (placeholder : nat -> string) (off : nat) :
  forall keys n,
    mapi_from (fun i key => key ++ " = " ++ placeholder (i + off)) n keys
    = assign placeholder (n + off) keys.
Proof.
  induction keys as [|key keys IH]; intros n; simpl; [reflexivity|].
  now rewrite IH.
Qed.

Lemma nth_error_assign (placeholder : nat -> string) :
  forall keys start i key,
    nth_error keys i = Some key ->
    nth_error (assign placeholder start keys) i = Some (key ++ " = " ++ placeholder (start + i)).
Proof.
  induction keys as [|k keys IH]; intros start [|i] key H; simpl in *; try discriminate.
  - injection H as ->. now rewrite Nat.add_0_r.
  - rewrite (IH (S start) i key H).
    replace (S start + i) with (start + S i) by lia. reflexivity.
Qed.

Lemma map_add_seq (b : nat) :
  forall len start, map (fun j => b + j) (seq start len) = seq (b + start) len.
Proof.
  induction len as [|len IH]; intros start; simpl; [reflexivity|].
  rewrite IH. now rewrite Nat.add_succ_r.
Qed.

(** The groups of the numbered style use the positions [0 .. n*k-1] once
    each, in increasing order. *)
Lemma concat_numbered_groups (n k : nat) :
  concat (numbered_groups n k) = map numbered (seq 0 (n * k)).
Proof.
  unfold numbered_groups.
  induction n as [|n IH].
  - reflexivity.
  - rewrite seq_S, map_app, concat_app, IH. simpl.
    rewrite app_nil_r.
    replace (k + n * k) with (n * k + k) by lia.
    rewrite seq_app, map_app. f_equal. simpl.
    rewrite <- (map_map (fun j => n * k + j) numbered).
    f_equal. now rewrite map_add_seq, Nat.add_0_r.
Qed.

Lemma nth_error_map_seq {B : Type} (f : nat -> B) :
  forall len start i,
    i < len -> nth_error (map f (seq start len)) i = Some (f (start + i)).
Proof.
  induction len as [|len IH]; intros start [|i] Hi; simpl; try lia.
  - now rewrite Nat.add_0_r.
  - rewrite IH by lia. now rewrite Nat.add_succ_r.
Qed.

(** In a concatenation of lists of one length [k], element [j] of list [i]
    sits at index [i*k+j]. *)
Lemma nth_error_concat_uniform {T : Type} (k : nat) :
  forall (ls : list (list T)) i j l v,
    Forall (fun l => List.length l = k) ls ->
    nth_error ls i = Some l ->
    nth_error l j = Some v ->
    nth_error (concat ls) (i * k + j) = Some v.
Proof.
  induction ls as [|a ls IH]; intros [|i] j l v Hall Hi Hj; simpl in Hi; try discriminate.
  - injection Hi as ->. simpl.
    rewrite nth_error_app1; [exact Hj|].
    apply nth_error_Some. now rewrite Hj.
  - inversion Hall as [|? ? Ha Hls]; subst.
    cbn [concat]. rewrite nth_error_app2 by (simpl; lia).
    replace (S i * List.length a + j - List.length a) with (i * List.length a + j)
      by (simpl; lia).
    now apply (IH i j l v).
Qed.

(** ** Requests issued by one driver call *)

Lemma requests_call {Sig : Signature} {A : Type} (d : Driver Sig) (r : Req Sig)
  (k : Resp Sig r -> Prog Sig A) (s : backend d) :
  (forall x s', requests (exec d (k x) s') = []) ->
  requests (exec d (Call r k) s) = [r].
Proof.
  intros Hk. cbn [exec].
  destruct (serve d s r) as [s' [x|e]]; cbn [requests]; [now rewrite Hk | reflexivity].
Qed.

Lemma pg_requests_query {A : Type} (d : Driver Postgres.pg) (q : value) (vs : list value)
  (f : Postgres.QueryResult -> Prog Postgres.pg A) (s : backend d) :
  (forall x s', requests (exec d (f x) s') = []) ->
  requests (exec d (x <- Postgres.client_query q vs ;; f x) s)
  = [ {| Postgres.text := q; Postgres.params := vs |} ].
Proof.
  intros Hf. unfold Postgres.client_query. cbn [bind].
  exact (@requests_call Postgres.pg A d {| Postgres.text := q; Postgres.params := vs |} _ s Hf).
Qed.

Lemma pg_requests_query_ret (d : Driver Postgres.pg) (q : value) (vs : list value)
  (s : backend d) :
  requests (exec d (Postgres.client_query q vs) s)
  = [ {| Postgres.text := q; Postgres.params := vs |} ].
Proof.
  unfold Postgres.client_query.
  exact (@requests_call Postgres.pg _ d {| Postgres.text := q; Postgres.params := vs |}
           (fun r => Ret r) s (fun _ _ => eq_refl)).
Qed.

Lemma sqlite_requests_prepared {A : Type} (d : Driver Sqlite.sqlite) (q : value)
  (m : Sqlite.method) (a : Sqlite.bindargs)
  (f : Sqlite.answer {| Sqlite.source := q; Sqlite.how := m; Sqlite.args := a |}
       -> Prog Sqlite.sqlite A)
  (s : backend d) :
  (forall x s', requests (exec d (f x) s') = []) ->
  requests (exec d (x <- Sqlite.prepared q m a ;; f x) s)
  = [ {| Sqlite.source := q; Sqlite.how := m; Sqlite.args := a |} ].
Proof.
  intros Hf. unfold Sqlite.prepared. cbn [bind].
  exact (@requests_call Sqlite.sqlite A d
           {| Sqlite.source := q; Sqlite.how := m; Sqlite.args := a |} _ s Hf).
Qed.

Lemma sqlite_requests_prepared_ret (d : Driver Sqlite.sqlite) (q : value)
  (m : Sqlite.method) (a : Sqlite.bindargs) (s : backend d) :
  requests (exec d (Sqlite.prepared q m a) s)
  = [ {| Sqlite.source := q; Sqlite.how := m; Sqlite.args := a |} ].
Proof.
  unfold Sqlite.prepared.
  exact (@requests_call Sqlite.sqlite _ d
           {| Sqlite.source := q; Sqlite.how := m; Sqlite.args := a |}
           (fun r => Ret r) s (fun _ _ => eq_refl)).
Qed.

(** ** The INSERT builder *)

Lemma pg_many_placeholders (keys : list string) (data : list obj) :
  mapi (fun i (_ : obj) =>
          "(" ++ join ", "
                   (mapi (fun j (_ : string) => "$" ++ dec (i * List.length keys + j + 1)) keys)
              ++ ")")
       data
  = map group (numbered_groups (List.length data) (List.length keys)).
Proof.
  unfold mapi, numbered_groups. rewrite map_map.
  rewrite <- mapi_from_index.
  apply mapi_from_ext. intros i _.
  unfold group. now rewrite (mapi_from_index (fun j => numbered (i * List.length keys + j))).
Qed.

Lemma sqlite_many_placeholders (keys : list string) (data : list obj) :
  map (fun _ : obj => "(" ++ join ", " (map (fun _ : string => "?") keys) ++ ")") data
  = map group (positional_groups (List.length data) (List.length keys)).
Proof.
  unfold positional_groups. rewrite map_repeat, !map_constant. reflexivity.
Qed.

Lemma pg_insert_many_requests (table : string) (row0 : obj) (rows : list obj)
  (d : Driver Postgres.pg) (s : backend d) :
  requests (exec d (Postgres.insert table (Many (row0 :: rows))) s)
  = [ {| Postgres.text :=
           VStr (insert_text table (Object_keys row0)
                   (numbered_groups (List.length (row0 :: rows))
                      (List.length (Object_keys row0))));
         Postgres.params := concat (map Object_values (row0 :: rows)) |} ].
Proof.
  unfold Postgres.insert. cbn [nth_error keys_of bind].
  rewrite pg_requests_query by reflexivity.
  rewrite pg_many_placeholders, reduce_concat. reflexivity.
Qed.

Lemma sqlite_insert_many_requests (table : string) (row0 : obj) (rows : list obj)
  (d : Driver Sqlite.sqlite) (s : backend d) :
  requests (exec d (Sqlite.insert table (Many (row0 :: rows))) s)
  = [ {| Sqlite.source :=
           VStr (insert_text table (Object_keys row0)
                   (positional_groups (List.length (row0 :: rows))
                      (List.length (Object_keys row0))));
         Sqlite.how := Sqlite.MRun;
         Sqlite.args := Sqlite.Spread (concat (map Object_values (row0 :: rows))) |} ].
Proof.
  unfold Sqlite.insert. cbn [nth_error keys_of bind].
  rewrite sqlite_requests_prepared by reflexivity.
  rewrite sqlite_many_placeholders, reduce_concat. reflexivity.
Qed.

Lemma pg_single_placeholders (keys : list string) :
  mapi (fun i (_ : string) => "$" ++ dec (i + 1)) keys
  = map numbered (seq 0 (List.length keys)).
Proof. exact (mapi_from_index numbered keys 0). Qed.

Lemma pg_insert_single_requests (table : string) (data : obj)
  (d : Driver Postgres.pg) (s : backend d) :
  requests (exec d (Postgres.insert table (Single data)) s)
  = [ {| Postgres.text :=
           VStr (insert_text table (Object_keys data)
                   [map numbered (seq 0 (List.length (Object_keys data)))]);
         Postgres.params := Object_values data |} ].
Proof.
  unfold Postgres.insert.
  rewrite pg_requests_query by reflexivity.
  rewrite pg_single_placeholders. reflexivity.
Qed.

Lemma sqlite_insert_single_requests (table : string) (data : obj)
  (d : Driver Sqlite.sqlite) (s : backend d) :
  requests (exec d (Sqlite.insert table (Single data)) s)
  = [ {| Sqlite.source :=
           VStr (insert_text table (Object_keys data)
                   [repeat "?" (List.length (Object_keys data))]);
         Sqlite.how := Sqlite.MRun;
         Sqlite.args := Sqlite.Spread (Object_values data) |} ].
Proof.
  unfold Sqlite.insert. cbn [bind].
  rewrite sqlite_requests_prepared by reflexivity.
  rewrite map_constant. reflexivity.
Qed.

Lemma shared_keys_uniform (row0 : obj) (rows : list obj) :
  Forall (fun row => Object_keys row = Object_keys row0) rows ->
  Forall (fun vs : list value => List.length vs = List.length (Object_keys row0))
         (map Object_values (row0 :: rows)).
Proof.
  intros Hshared. constructor.
  - unfold Object_values, Object_keys. now rewrite !length_map.
  - apply Forall_map. eapply Forall_impl; [|exact Hshared].
    intros row Hrow. cbn beta. rewrite <- Hrow.
    unfold Object_values, Object_keys. now rewrite !length_map.
Qed.

Lemma shared_keys_column (row0 : obj) (rows : list obj) :
  Forall (fun row => Object_keys row = Object_keys row0) rows ->
  forall i row, nth_error (row0 :: rows) i = Some row -> Object_keys row = Object_keys row0.
Proof.
  intros Hshared [|i] row Hi; simpl in Hi.
  - now injection Hi as ->.
  - rewrite Forall_forall in Hshared. apply Hshared. eapply nth_error_In; eassumption.
Qed.

(** C2.  For a non-empty sequence of rows that share the key sequence of the
    first row, [insert(table, rows)] submits one INSERT whose column list is
    the first row's keys, with one placeholder group per row and [k]
    placeholders per group, bound to the rows' values concatenated in row
    order.  In the numbered dialect the groups hold [$1 .. $(n*k)] once each
    in increasing order, row [i] column [j] holding [$(i*k+j+1)], and the
    value bound at that position is row [i]'s value of column [j]; in the
    positional dialect every slot is [?]. *)
Theorem insert_many_statement (table : string) (row0 : obj) (rows : list obj) :
  Forall (fun row => Object_keys row = Object_keys row0) rows ->
  let data := row0 :: rows in
  let n := List.length data in
  let k := List.length (Object_keys row0) in
  (forall (d : Driver Postgres.pg) (s : backend d),
      requests (exec d (Postgres.insert table (Many data)) s)
      = [ {| Postgres.text :=
               VStr (insert_text table (Object_keys row0) (numbered_groups n k));
             Postgres.params := concat (map Object_values data) |} ])
  /\ (forall (d : Driver Sqlite.sqlite) (s : backend d),
      requests (exec d (Sqlite.insert table (Many data)) s)
      = [ {| Sqlite.source :=
               VStr (insert_text table (Object_keys row0) (positional_groups n k));
             Sqlite.how := Sqlite.MRun;
             Sqlite.args := Sqlite.Spread (concat (map Object_values data)) |} ])
  /\ (List.length (numbered_groups n k) = n
      /\ Forall (fun g => List.length g = k) (numbered_groups n k)
      /\ concat (numbered_groups n k) = map numbered (seq 0 (n * k)))
  /\ positional_groups n k = repeat (repeat "?" k) n
  /\ (forall i j row key v,
         nth_error data i = Some row ->
         nth_error row j = Some (key, v) ->
         nth_error (Object_keys row0) j = Some key
         /\ (exists g, nth_error (numbered_groups n k) i = Some g
                       /\ nth_error g j = Some ("$" ++ dec (i * k + j + 1)))
         /\ nth_error (concat (map Object_values data)) (i * k + j) = Some v).
Proof.
  intros Hshared data n k.
  split; [|split; [|split; [|split]]].
  - intros d s. apply pg_insert_many_requests.
  - intros d s. apply sqlite_insert_many_requests.
  - split; [|split].
    + unfold numbered_groups. now rewrite length_map, length_seq.
    + unfold numbered_groups. apply Forall_map, Forall_forall. intros i _.
      now rewrite length_map, length_seq.
    + apply concat_numbered_groups.
  - reflexivity.
  - intros i j row key v Hi Hj.
    pose proof (@shared_keys_column row0 rows Hshared i row Hi) as Hkeys.
    assert (Hin : i < n) by (apply (proj1 (nth_error_Some data i)); now rewrite Hi).
    assert (Hjk : j < k).
    { unfold k. rewrite <- Hkeys. unfold Object_keys. rewrite length_map.
      apply nth_error_Some. now rewrite Hj. }
    split; [|split].
    + rewrite <- Hkeys. unfold Object_keys. now rewrite nth_error_map, Hj.
    + exists (map (fun j => numbered (i * k + j)) (seq 0 k)). split.
      * unfold numbered_groups. now rewrite nth_error_map_seq by exact Hin.
      * now rewrite nth_error_map_seq by exact Hjk.
    + apply (@nth_error_concat_uniform value k (map Object_values data) i j
               (Object_values row) v).
      * apply shared_keys_uniform, Hshared.
      * now rewrite nth_error_map, Hi.
      * unfold Object_values. now rewrite nth_error_map, Hj.
Qed.

Lemma insert_many_statement_witness :
  Forall (fun row => Object_keys row = Object_keys [("title", VStr "hello"); ("body", VStr "world")])
         [[("title", VStr "hi"); ("body", VStr "universe")]]
  /\ requests (exec (pg_yielding [] (VNum 2))
                 (Postgres.insert "contents"
                    (Many [[("title", VStr "hello"); ("body", VStr "world")];
                           [("title", VStr "hi"); ("body", VStr "universe")]]))
                 tt)
     = [ {| Postgres.text :=
              VStr "INSERT INTO contents (title, body) VALUES ($1, $2), ($3, $4)";
            Postgres.params := [VStr "hello"; VStr "world"; VStr "hi"; VStr "universe"] |} ].
Proof.
  assert (H : Forall (fun row => Object_keys row
                                 = Object_keys [("title", VStr "hello"); ("body", VStr "world")])
                [[("title", VStr "hi"); ("body", VStr "universe")]])
    by (repeat constructor).
  split; [exact H|].
  exact (proj1 (@insert_many_statement "contents"
                  [("title", VStr "hello"); ("body", VStr "world")]
                  [[("title", VStr "hi"); ("body", VStr "universe")]] H)
           (pg_yielding [] (VNum 2)) tt).
Defined.

(** C4.  For a single mapping, [insert(table, data)] submits one INSERT
    whose column list is [keys(data)] in enumeration order, with one group of
    as many placeholders, bound to [values(data)] in the same order: the
    [i]-th property of [data] gives column [i], placeholder [i] and bound
    value [i], in both dialects. *)
Theorem insert_single_statement (table : string) (data : obj) :
  let k := List.length (Object_keys data) in
  (forall (d : Driver Postgres.pg) (s : backend d),
      requests (exec d (Postgres.insert table (Single data)) s)
      = [ {| Postgres.text :=
               VStr (insert_text table (Object_keys data) [map numbered (seq 0 k)]);
             Postgres.params := Object_values data |} ])
  /\ (forall (d : Driver Sqlite.sqlite) (s : backend d),
      requests (exec d (Sqlite.insert table (Single data)) s)
      = [ {| Sqlite.source := VStr (insert_text table (Object_keys data) [repeat "?" k]);
             Sqlite.how := Sqlite.MRun;
             Sqlite.args := Sqlite.Spread (Object_values data) |} ])
  /\ (forall i key v,
         nth_error data i = Some (key, v) ->
         nth_error (Object_keys data) i = Some key
         /\ nth_error (Object_values data) i = Some v
         /\ nth_error (map numbered (seq 0 k)) i = Some ("$" ++ dec (i + 1))
         /\ nth_error (repeat "?" k) i = Some "?").
Proof.
  intros k. split; [|split].
  - intros d s. apply pg_insert_single_requests.
  - intros d s. apply sqlite_insert_single_requests.
  - intros i key v Hi.
    assert (Hik : i < k).
    { unfold k, Object_keys. rewrite length_map. apply nth_error_Some. now rewrite Hi. }
    split; [|split; [|split]].
    + unfold Object_keys. now rewrite nth_error_map, Hi.
    + unfold Object_values. now rewrite nth_error_map, Hi.
    + now rewrite nth_error_map_seq by exact Hik.
    + now apply nth_error_repeat.
Qed.

Lemma insert_single_statement_witness :
  nth_error [("title", VStr "hello"); ("body", VStr "world")] 1 = Some ("body", VStr "world")
  /\ requests (exec (pg_yielding [] (VNum 1))
                 (Postgres.insert "contents"
                    (Single [("title", VStr "hello"); ("body", VStr "world")]))
                 tt)
     = [ {| Postgres.text := VStr "INSERT INTO contents (title, body) VALUES ($1, $2)";
            Postgres.params := [VStr "hello"; VStr "world"] |} ]
  /\ nth_error (Object_values [("title", VStr "hello"); ("body", VStr "world")]) 1
     = Some (VStr "world").
Proof.
  pose proof (insert_single_statement "contents"
                [("title", VStr "hello"); ("body", VStr "world")]) as [Hpg [_ Hcol]].
  split; [reflexivity|]. split.
  - exact (Hpg (pg_yielding [] (VNum 1)) tt).
  - exact (proj1 (proj2 (Hcol 1 "body" (VStr "world") eq_refl))).
Defined.

(** ** The UPDATE builder *)

Lemma pg_set_clause (keys : list string) :
  mapi (fun i key => key ++ " = $" ++ dec (i + 1)) keys = assign numbered 0 keys.
Proof.
  unfold mapi.
  transitivity (mapi_from (fun i key => key ++ " = " ++ numbered (i + 0)) 0 keys);
    [|exact (mapi_from_assign numbered 0 keys 0)].
  apply mapi_from_ext. intros i key. now rewrite Nat.add_0_r.
Qed.

Lemma pg_where_clause (m : nat) (keys : list string) :
  mapi (fun i key => key ++ " = $" ++ dec (i + 1 + m)) keys = assign numbered m keys.
Proof.
  unfold mapi.
  transitivity (mapi_from (fun i key => key ++ " = " ++ numbered (i + m)) 0 keys);
    [|exact (mapi_from_assign numbered m keys 0)].
  apply mapi_from_ext. intros i key. unfold numbered.
  now replace (i + 1 + m) with (i + m + 1) by lia.
Qed.

Lemma sqlite_clause (start : nat) (keys : list string) :
  mapi (fun (_ : nat) key => key ++ " = ?") keys = assign positional start keys.
Proof.
  unfold mapi.
  transitivity (mapi_from (fun i key => key ++ " = " ++ positional (i + start)) 0 keys);
    [|exact (mapi_from_assign positional start keys 0)].
  apply mapi_from_ext. reflexivity.
Qed.

Lemma sqlite_conditions (start : nat) (keys : list string) :
  map (fun key => key ++ " = ?") keys = assign positional start keys.
Proof.
  revert start. induction keys as [|key keys IH]; intros start; simpl; [reflexivity|].
  now rewrite (IH (S start)).
Qed.

Lemma pg_update_requests (table : string) (where_ data : obj)
  (d : Driver Postgres.pg) (s : backend d) :
  requests (exec d (Postgres.update table where_ data) s)
  = [ {| Postgres.text :=
           VStr (update_text table
                   (assign numbered 0 (Object_keys data))
                   (assign numbered (List.length (Object_values data)) (Object_keys where_)));
         Postgres.params := (Object_values data ++ Object_values where_)%list |} ].
Proof.
  unfold Postgres.update.
  rewrite pg_requests_query by reflexivity.
  rewrite pg_set_clause, pg_where_clause. reflexivity.
Qed.

Lemma sqlite_update_requests (table : string) (where_ data : obj)
  (d : Driver Sqlite.sqlite) (s : backend d) :
  requests (exec d (Sqlite.update table where_ data) s)
  = [ {| Sqlite.source :=
           VStr (update_text table
                   (assign positional 0 (Object_keys data))
                   (assign positional (List.length (Object_values data)) (Object_keys where_)));
         Sqlite.how := Sqlite.MRun;
         Sqlite.args := Sqlite.Packed (Object_values data ++ Object_values where_)%list |} ].
Proof.
  unfold Sqlite.update.
  rewrite sqlite_requests_prepared by reflexivity.
  rewrite (sqlite_clause 0 (Object_keys data)).
  rewrite (sqlite_clause (List.length (Object_values data)) (Object_keys where_)).
  reflexivity.
Qed.

(** C3.  [update(table, where, data)] submits one UPDATE whose SET clause
    assigns [keys(data)] in enumeration order and whose WHERE clause joins
    [keys(where)] with AND, the placeholders of both drawn from one counter
    that serves [data] first, so that where key [i] gets [$(i+1+len(data))]
    in the numbered dialect; the bound values are [values(data)] followed by
    [values(where)], each at the position its placeholder names. *)
Theorem update_statement (table : string) (where_ data : obj) :
  let m := List.length (Object_values data) in
  let bound := (Object_values data ++ Object_values where_)%list in
  (forall (d : Driver Postgres.pg) (s : backend d),
      requests (exec d (Postgres.update table where_ data) s)
      = [ {| Postgres.text :=
               VStr (update_text table
                       (assign numbered 0 (Object_keys data))
                       (assign numbered m (Object_keys where_)));
             Postgres.params := bound |} ])
  /\ (forall (d : Driver Sqlite.sqlite) (s : backend d),
      requests (exec d (Sqlite.update table where_ data) s)
      = [ {| Sqlite.source :=
               VStr (update_text table
                       (assign positional 0 (Object_keys data))
                       (assign positional m (Object_keys where_)));
             Sqlite.how := Sqlite.MRun;
             Sqlite.args := Sqlite.Packed bound |} ])
  /\ (forall i key v,
         nth_error data i = Some (key, v) ->
         nth_error (assign numbered 0 (Object_keys data)) i
         = Some (key ++ " = $" ++ dec (i + 1))
         /\ nth_error bound i = Some v)
  /\ (forall i key v,
         nth_error where_ i = Some (key, v) ->
         nth_error (assign numbered m (Object_keys where_)) i
         = Some (key ++ " = $" ++ dec (i + 1 + m))
         /\ nth_error bound (i + m) = Some v).
Proof.
  intros m bound. split; [|split; [|split]].
  - intros d s. apply pg_update_requests.
  - intros d s. apply sqlite_update_requests.
  - intros i key v Hi. split.
    + rewrite (@nth_error_assign numbered (Object_keys data) 0 i key)
        by (unfold Object_keys; now rewrite nth_error_map, Hi).
      reflexivity.
    + unfold bound. rewrite nth_error_app1.
      * unfold Object_values. now rewrite nth_error_map, Hi.
      * unfold Object_values. rewrite length_map. apply nth_error_Some. now rewrite Hi.
  - intros i key v Hi. split.
    + rewrite (@nth_error_assign numbered (Object_keys where_) m i key)
        by (unfold Object_keys; now rewrite nth_error_map, Hi).
      unfold numbered. now replace (m + i + 1) with (i + 1 + m) by lia.
    + unfold bound. rewrite nth_error_app2 by (fold m; lia).
      fold m. replace (i + m - m) with i by lia.
      unfold Object_values. now rewrite nth_error_map, Hi.
Qed.

Lemma update_statement_witness :
  nth_error [("id", VNum 5)] 0 = Some ("id", VNum 5)
  /\ requests (exec (pg_yielding [] (VNum 1))
                 (Postgres.update "contents" [("id", VNum 5)]
                    [("title", VStr "hi"); ("body", VStr "universe")])
                 tt)
     = [ {| Postgres.text := VStr "UPDATE contents SET title = $1, body = $2 WHERE id = $3";
            Postgres.params := [VStr "hi"; VStr "universe"; VNum 5] |} ]
  /\ nth_error [VStr "hi"; VStr "universe"; VNum 5] 2 = Some (VNum 5).
Proof.
  pose proof (update_statement "contents" [("id", VNum 5)]
                [("title", VStr "hi"); ("body", VStr "universe")]) as [Hpg [_ [_ Hwhere]]].
  split; [reflexivity|]. split.
  - exact (Hpg (pg_yielding [] (VNum 1)) tt).
  - exact (proj2 (Hwhere 0 "id" (VNum 5) eq_refl)).
Defined.

(** ** The SELECT builders *)

Lemma pg_get_requests (table : string) (where_ : obj)
  (d : Driver Postgres.pg) (s : backend d) :
  requests (exec d (Postgres.get table where_) s)
  = [ {| Postgres.text :=
           VStr ("SELECT * FROM " ++ table ++ " WHERE "
                   ++ join " AND " (assign numbered 0 (Object_keys where_)));
         Postgres.params := Object_values where_ |} ].
Proof.
  unfold Postgres.get. rewrite pg_requests_query_ret, pg_set_clause. reflexivity.
Qed.

Lemma pg_list_requests (table : string) (where_ : obj)
  (d : Driver Postgres.pg) (s : backend d) :
  requests (exec d (Postgres.list table where_) s)
  = [ {| Postgres.text :=
           VStr ("SELECT * FROM " ++ table ++ " WHERE "
                   ++ join " AND " (assign numbered 0 (Object_keys where_)));
         Postgres.params := Object_values where_ |} ].
Proof.
  unfold Postgres.list. rewrite pg_requests_query_ret, pg_set_clause. reflexivity.
Qed.

Lemma sqlite_get_requests (table : string) (where_ : obj)
  (d : Driver Sqlite.sqlite) (s : backend d) :
  requests (exec d (Sqlite.get table where_) s)
  = [ {| Sqlite.source :=
           VStr ("select * from " ++ table ++ " where "
                   ++ join " and " (assign positional 0 (Object_keys where_)));
         Sqlite.how := Sqlite.MGet;
         Sqlite.args := Sqlite.Spread (Object_values where_) |} ].
Proof.
  unfold Sqlite.get. cbv zeta. rewrite (sqlite_conditions 0).
  exact (sqlite_requests_prepared_ret d _ Sqlite.MGet _ s).
Qed.

Lemma sqlite_list_requests (table : string) (where_ : obj)
  (d : Driver Sqlite.sqlite) (s : backend d) :
  requests (exec d (Sqlite.list table where_) s)
  = [ {| Sqlite.source :=
           VStr ("select * from " ++ table ++ " where "
                   ++ join " and " (assign positional 0 (Object_keys where_)));
         Sqlite.how := Sqlite.MAll;
         Sqlite.args := Sqlite.Spread (Object_values where_) |} ].
Proof.
  unfold Sqlite.list. cbv zeta. rewrite (sqlite_conditions 0).
  exact (sqlite_requests_prepared_ret d _ Sqlite.MAll _ s).
Qed.

(** What an operation that only forwards one driver call ends with: the
    driver's own answer or failure. *)
Lemma result_forwarded {Sig : Signature} (d : Driver Sig) (r : Req Sig) (s : backend d) :
  result (exec d (Call r (fun x => Ret x)) s) = snd (serve d s r).
Proof.
  cbn [exec]. now destruct (serve d s r) as [s' [x|e]].
Qed.

(** C9.  The statement that [get] and [list] compile depends on nothing but
    the table and the where mapping: two calls whose where mappings have the
    same keys and the same values in the same order submit the same SQL text
    with the same bound values, whatever the driver and its state, in both
    dialects. *)
Theorem select_deterministic (table : string) (w1 w2 : obj) :
  Object_keys w1 = Object_keys w2 ->
  Object_values w1 = Object_values w2 ->
  (forall (d1 d2 : Driver Postgres.pg) (s1 : backend d1) (s2 : backend d2),
      requests (exec d1 (Postgres.get table w1) s1)
      = requests (exec d2 (Postgres.get table w2) s2)
      /\ requests (exec d1 (Postgres.list table w1) s1)
         = requests (exec d2 (Postgres.list table w2) s2))
  /\ (forall (d1 d2 : Driver Sqlite.sqlite) (s1 : backend d1) (s2 : backend d2),
      requests (exec d1 (Sqlite.get table w1) s1)
      = requests (exec d2 (Sqlite.get table w2) s2)
      /\ requests (exec d1 (Sqlite.list table w1) s1)
         = requests (exec d2 (Sqlite.list table w2) s2)).
Proof.
  intros Hkeys Hvalues. split; intros d1 d2 s1 s2; split.
  - now rewrite !pg_get_requests, Hkeys, Hvalues.
  - now rewrite !pg_list_requests, Hkeys, Hvalues.
  - now rewrite !sqlite_get_requests, Hkeys, Hvalues.
  - now rewrite !sqlite_list_requests, Hkeys, Hvalues.
Qed.

Lemma select_deterministic_witness :
  Object_keys [("title", VStr "hello")] = Object_keys [("title", VStr "hello")]
  /\ Object_values [("title", VStr "hello")] = Object_values [("title", VStr "hello")]
  /\ requests (exec (pg_yielding [] (VNum 0))
              (Postgres.get "contents" [("title", VStr "hello")]) tt)
  = requests (exec (pg_yielding [[("title", VStr "hello")]] (VNum 1))
                (Postgres.get "contents" [("title", VStr "hello")]) tt).
Proof.
  split; [reflexivity|]. split; [reflexivity|].
  exact (proj1 (proj1 (@select_deterministic "contents"
                         [("title", VStr "hello")] [("title", VStr "hello")]
                         eq_refl eq_refl)
                  (pg_yielding [] (VNum 0))
                  (pg_yielding [[("title", VStr "hello")]] (VNum 1)) tt tt)).
Defined.

(** C10.  With an empty where mapping, [get] and [list] still submit a
    statement: its text ends after [WHERE ] with no condition, no value is
    bound, and the call ends with whatever the driver answers. *)
Theorem select_with_empty_where (table : string) :
  (forall (d : Driver Postgres.pg) (s : backend d),
      let q := {| Postgres.text := VStr ("SELECT * FROM " ++ table ++ " WHERE ");
                  Postgres.params := [] |} in
      (requests (exec d (Postgres.get table []) s) = [q]
       /\ result (exec d (Postgres.get table []) s) = snd (serve d s q))
      /\ (requests (exec d (Postgres.list table []) s) = [q]
          /\ result (exec d (Postgres.list table []) s) = snd (serve d s q)))
  /\ (forall (d : Driver Sqlite.sqlite) (s : backend d),
      let q m := {| Sqlite.source := VStr ("select * from " ++ table ++ " where ");
                    Sqlite.how := m;
                    Sqlite.args := Sqlite.Spread [] |} in
      (requests (exec d (Sqlite.get table []) s) = [q Sqlite.MGet]
       /\ result (exec d (Sqlite.get table []) s) = snd (serve d s (q Sqlite.MGet)))
      /\ (requests (exec d (Sqlite.list table []) s) = [q Sqlite.MAll]
          /\ result (exec d (Sqlite.list table []) s) = snd (serve d s (q Sqlite.MAll)))).
Proof.
  split; intros d s q; (split; split).
  - apply pg_get_requests.
  - apply (@result_forwarded Postgres.pg d q s).
  - apply pg_list_requests.
  - apply (@result_forwarded Postgres.pg d q s).
  - apply sqlite_get_requests.
  - apply (@result_forwarded Sqlite.sqlite d (q Sqlite.MGet) s).
  - apply sqlite_list_requests.
  - apply (@result_forwarded Sqlite.sqlite d (q Sqlite.MAll) s).
Qed.

(** ** Shapes that [insert] does not check *)

Lemma pg_insert_empty (table : string) (d : Driver Postgres.pg) (s : backend d) :
  exec d (Postgres.insert table (Many [])) s
  = {| final := s; requests := []; result := Thrown TypeError |}.
Proof. reflexivity. Qed.

Lemma sqlite_insert_empty (table : string) (d : Driver Sqlite.sqlite) (s : backend d) :
  exec d (Sqlite.insert table (Many [])) s
  = {| final := s; requests := []; result := Thrown TypeError |}.
Proof. reflexivity. Qed.

(** C7, as the code has it.  [insert] with an empty sequence fails with a
    [TypeError] before any statement is built, and the driver receives
    nothing.  A non-empty sequence is not checked: whatever the keys of its
    rows, the statement is built from the first row's keys, with one
    placeholder group per row, and submitted with the values of all rows
    concatenated. *)
Theorem insert_shape_unchecked (table : string) :
  (forall (d : Driver Postgres.pg) (s : backend d),
      exec d (Postgres.insert table (Many [])) s
      = {| final := s; requests := []; result := Thrown TypeError |})
  /\ (forall (d : Driver Sqlite.sqlite) (s : backend d),
      exec d (Sqlite.insert table (Many [])) s
      = {| final := s; requests := []; result := Thrown TypeError |})
  /\ (forall (row0 : obj) (rows : list obj) (d : Driver Postgres.pg) (s : backend d),
      requests (exec d (Postgres.insert table (Many (row0 :: rows))) s)
      = [ {| Postgres.text :=
               VStr (insert_text table (Object_keys row0)
                       (numbered_groups (S (List.length rows))
                          (List.length (Object_keys row0))));
             Postgres.params := concat (map Object_values (row0 :: rows)) |} ])
  /\ (forall (row0 : obj) (rows : list obj) (d : Driver Sqlite.sqlite) (s : backend d),
      requests (exec d (Sqlite.insert table (Many (row0 :: rows))) s)
      = [ {| Sqlite.source :=
               VStr (insert_text table (Object_keys row0)
                       (positional_groups (S (List.length rows))
                          (List.length (Object_keys row0))));
             Sqlite.how := Sqlite.MRun;
             Sqlite.args := Sqlite.Spread (concat (map Object_values (row0 :: rows))) |} ]).
Proof.
  split; [|split; [|split]].
  - intros d s. apply pg_insert_empty.
  - intros d s. apply sqlite_insert_empty.
  - intros row0 rows d s. apply pg_insert_many_requests.
  - intros row0 rows d s. apply sqlite_insert_many_requests.
Qed.

(** C7 as stated fails: rows with different key sets are not rejected, and a
    statement with two placeholders and three bound values reaches the
    driver. *)
Lemma insert_mismatched_rows_submitted :
  Object_keys [("b", VNum 2); ("c", VNum 3)] <> Object_keys [("a", VNum 1)]
  /\ requests (exec (pg_yielding [] (VNum 2))
                 (Postgres.insert "t"
                    (Many [[("a", VNum 1)]; [("b", VNum 2); ("c", VNum 3)]]))
                 tt)
     = [ {| Postgres.text := VStr "INSERT INTO t (a) VALUES ($1), ($2)";
            Postgres.params := [VNum 1; VNum 2; VNum 3] |} ]
  /\ requests (exec (sqlite_yielding [] (VNum 2))
                 (Sqlite.insert "t"
                    (Many [[("a", VNum 1)]; [("b", VNum 2); ("c", VNum 3)]]))
                 tt)
     = [ {| Sqlite.source := VStr "INSERT INTO t (a) VALUES (?), (?)";
            Sqlite.how := Sqlite.MRun;
            Sqlite.args := Sqlite.Spread [VNum 1; VNum 2; VNum 3] |} ].
Proof.
  split; [discriminate|]. split; reflexivity.
Qed.

(** ** Results of the numbered dialect *)

(** C5 on the code.  The numbered [get] and [list] are the same program and
    return the driver's whole result object: with two matching rows [get]
    returns both inside that object, not the first Row, and [list] returns
    the object, not the sequence of rows.  The positional [get] and [list]
    return the first Row and the sequence. *)
Theorem pg_get_returns_raw_result :
  let hello := [("title", VStr "hello"); ("body", VStr "world")] in
  let again := [("title", VStr "hello"); ("body", VStr "again")] in
  let where_ := [("title", VStr "hello")] in
  result (exec (pg_yielding [hello; again] (VNum 2)) (Postgres.get "contents" where_) tt)
  = Returned {| Postgres.rows := [hello; again]; Postgres.rowCount := VNum 2 |}
  /\ result (exec (pg_yielding [hello; again] (VNum 2)) (Postgres.list "contents" where_) tt)
     = Returned {| Postgres.rows := [hello; again]; Postgres.rowCount := VNum 2 |}
  /\ (forall table w, Postgres.get table w = Postgres.list table w)
  /\ result (exec (sqlite_yielding [hello; again] (VNum 0)) (Sqlite.get "contents" where_) tt)
     = Returned (Some hello)
  /\ result (exec (sqlite_yielding [hello; again] (VNum 0)) (Sqlite.list "contents" where_) tt)
     = Returned [hello; again].
Proof.
  repeat split.
Qed.

(** C6 on the code.  The numbered [pluck] evaluates [result.rows[0][0]]:
    with no row it throws a [TypeError], and with a row it reads the
    property named [0] of the row object, which a row keyed by column names
    does not have.  The positional [pluck] returns [undefined] and the first
    column. *)
Theorem pg_pluck_reads_property_zero :
  let strings := ["select id from contents where title = "; ""] in
  let found := [("id", VNum 7); ("title", VStr "hello")] in
  result (exec (pg_yielding [] (VNum 0)) (Postgres.pluck strings [VStr "nope"]) tt)
  = Thrown TypeError
  /\ result (exec (pg_yielding [found] (VNum 1)) (Postgres.pluck strings [VStr "hello"]) tt)
     = Returned VUndefined
  /\ result (exec (sqlite_yielding [] (VNum 0)) (Sqlite.pluck strings [VStr "nope"]) tt)
     = Returned VUndefined
  /\ result (exec (sqlite_yielding [found] (VNum 0)) (Sqlite.pluck strings [VStr "hello"]) tt)
     = Returned (VNum 7).
Proof.
  repeat split.
Qed.

(** ** The closures of [table] *)

Lemma pg_table_insert_overflows (stack : nat) (table : string) :
  forall data, Postgres.table_insert stack table data = Throw RangeError.
Proof. induction stack as [|stack IH]; intros data; simpl; [reflexivity | apply IH]. Qed.

Lemma pg_table_get_overflows (stack : nat) (table : string) :
  forall data, Postgres.table_get stack table data = Throw RangeError.
Proof. induction stack as [|stack IH]; intros data; simpl; [reflexivity | apply IH]. Qed.

Lemma pg_table_list_overflows (stack : nat) (table : string) :
  forall data, Postgres.table_list stack table data = Throw RangeError.
Proof. induction stack as [|stack IH]; intros data; simpl; [reflexivity | apply IH]. Qed.

Lemma sqlite_table_insert_overflows (stack : nat) (table : string) :
  forall data, Sqlite.table_insert stack table data = Throw RangeError.
Proof. induction stack as [|stack IH]; intros data; simpl; [reflexivity | apply IH]. Qed.

Lemma sqlite_table_get_overflows (stack : nat) (table : string) :
  forall data, Sqlite.table_get stack table data = Throw RangeError.
Proof. induction stack as [|stack IH]; intros data; simpl; [reflexivity | apply IH]. Qed.

Lemma sqlite_table_list_overflows (stack : nat) (table : string) :
  forall data, Sqlite.table_list stack table data = Throw RangeError.
Proof. induction stack as [|stack IH]; intros data; simpl; [reflexivity | apply IH]. Qed.

(** C8 on the code.  Each member of [table(name)] calls itself, not the
    top-level operation whose name it shadows: whatever the stack depth and
    the argument, the call ends in a [RangeError] and the driver receives
    nothing, whereas [insert(name, data)], [get(name, where)] and
    [list(name, where)] each submit a statement. *)
Theorem table_members_never_reach_driver (stack : nat) (name : string) (o : obj) :
  (forall (d : Driver Postgres.pg) (s : backend d),
      let overflow A := {| final := s; requests := @nil (Req Postgres.pg);
                           result := @Thrown A RangeError |} in
      (exec d (Postgres.bound_insert (Postgres.table stack name) (ArgObject o)) s = overflow _
       /\ requests (exec d (Postgres.insert name (Single o)) s) <> [])
      /\ (exec d (Postgres.bound_get (Postgres.table stack name) (ArgObject o)) s = overflow _
          /\ requests (exec d (Postgres.get name o) s) <> [])
      /\ (exec d (Postgres.bound_list (Postgres.table stack name) (ArgObject o)) s = overflow _
          /\ requests (exec d (Postgres.list name o) s) <> []))
  /\ (forall (d : Driver Sqlite.sqlite) (s : backend d),
      let overflow A := {| final := s; requests := @nil (Req Sqlite.sqlite);
                           result := @Thrown A RangeError |} in
      (exec d (Sqlite.bound_insert (Sqlite.table stack name) (ArgObject o)) s = overflow _
       /\ requests (exec d (Sqlite.insert name (Single o)) s) <> [])
      /\ (exec d (Sqlite.bound_get (Sqlite.table stack name) (ArgObject o)) s = overflow _
          /\ requests (exec d (Sqlite.get name o) s) <> [])
      /\ (exec d (Sqlite.bound_list (Sqlite.table stack name) (ArgObject o)) s = overflow _
          /\ requests (exec d (Sqlite.list name o) s) <> [])).
Proof.
  split; intros d s overflow; unfold overflow; cbn [Postgres.table Postgres.bound_insert
    Postgres.bound_get Postgres.bound_list Sqlite.table Sqlite.bound_insert Sqlite.bound_get
    Sqlite.bound_list].
  - rewrite pg_table_insert_overflows, pg_table_get_overflows, pg_table_list_overflows.
    rewrite pg_insert_single_requests, pg_get_requests, pg_list_requests.
    repeat split; discriminate.
  - rewrite sqlite_table_insert_overflows, sqlite_table_get_overflows,
      sqlite_table_list_overflows.
    rewrite sqlite_insert_single_requests, sqlite_get_requests, sqlite_list_requests.
    repeat split; discriminate.
Qed.

(** * Further properties of the adapters *)

(** ** One driver call and its outcome *)




(** ** The template functions of the numbered dialect *)

(** For a well-formed template, [many], [single], [pluck] and [execute] each
    submit exactly the statement that [parseTemplate] builds: the woven text
    and the values in order. *)
Theorem pg_template_requests (F : list string) (V : list value) :
  List.length F = List.length V + 1 ->
  forall (d : Driver Postgres.pg) (s : backend d),
    let q := {| Postgres.text := VStr (interleaved numbered F); Postgres.params := V |} in
    requests (exec d (Postgres.many F V) s) = [q]
    /\ requests (exec d (Postgres.single F V) s) = [q]
    /\ requests (exec d (Postgres.pluck F V) s) = [q]
    /\ requests (exec d (Postgres.execute F V) s) = [q].
Proof.
  intros Hlen d s q.
  unfold Postgres.many, Postgres.single, Postgres.pluck, Postgres.execute.
  rewrite (pg_parseTemplate_spec F V Hlen). cbn [sql values].
  split; [|split; [|split]].
  - now apply pg_requests_query.
  - now apply pg_requests_query.
  - apply pg_requests_query. intros x s'. now destruct (nth_error (Postgres.rows x) 0).
  - apply pg_requests_query_ret.
Qed.

Lemma pg_template_requests_witness :
  List.length ["select * from contents where title = "; ""] = List.length [VStr "hello"] + 1
  /\ requests (exec (pg_yielding [] (VNum 0))
                 (Postgres.many ["select * from contents where title = "; ""] [VStr "hello"])
                 tt)
     = [ {| Postgres.text := VStr "select * from contents where title = $1";
            Postgres.params := [VStr "hello"] |} ].
Proof.
  split; [reflexivity|].
  exact (proj1 (@pg_template_requests ["select * from contents where title = "; ""]
                  [VStr "hello"] eq_refl (pg_yielding [] (VNum 0)) tt)).
Defined.


(** ** The template functions of the positional dialect *)

(** For a well-formed template, [many], [single], [pluck] and [execute] each
    prepare the woven text and bind the values as one array; they differ in
    the statement method only, and return the driver's answer untouched. *)
Theorem sqlite_template_requests (F : list string) (V : list value) :
  List.length F = List.length V + 1 ->
  forall (d : Driver Sqlite.sqlite) (s : backend d),
    let q m := {| Sqlite.source := VStr (interleaved positional F);
                  Sqlite.how := m;
                  Sqlite.args := Sqlite.Packed V |} in
    (requests (exec d (Sqlite.many F V) s) = [q Sqlite.MAll]
     /\ result (exec d (Sqlite.many F V) s) = snd (serve d s (q Sqlite.MAll)))
    /\ (requests (exec d (Sqlite.single F V) s) = [q Sqlite.MGet]
        /\ result (exec d (Sqlite.single F V) s) = snd (serve d s (q Sqlite.MGet)))
    /\ (requests (exec d (Sqlite.pluck F V) s) = [q Sqlite.MPluckGet]
        /\ result (exec d (Sqlite.pluck F V) s) = snd (serve d s (q Sqlite.MPluckGet)))
    /\ (requests (exec d (Sqlite.execute F V) s) = [q Sqlite.MRun]
        /\ result (exec d (Sqlite.execute F V) s) = snd (serve d s (q Sqlite.MRun))).
Proof.
  intros Hlen d s q.
  unfold Sqlite.many, Sqlite.single, Sqlite.pluck, Sqlite.execute.
  rewrite (sqlite_parseTemplate_spec F V Hlen). cbn [sql values].
  split; [|split; [|split]]; split.
  - exact (sqlite_requests_prepared_ret d _ Sqlite.MAll _ s).
  - exact (@result_forwarded Sqlite.sqlite d (q Sqlite.MAll) s).
  - exact (sqlite_requests_prepared_ret d _ Sqlite.MGet _ s).
  - exact (@result_forwarded Sqlite.sqlite d (q Sqlite.MGet) s).
  - exact (sqlite_requests_prepared_ret d _ Sqlite.MPluckGet _ s).
  - exact (@result_forwarded Sqlite.sqlite d (q Sqlite.MPluckGet) s).
  - exact (sqlite_requests_prepared_ret d _ Sqlite.MRun _ s).
  - exact (@result_forwarded Sqlite.sqlite d (q Sqlite.MRun) s).
Qed.

Lemma sqlite_template_requests_witness :
  List.length ["select * from contents where id = "; ""] = List.length [VNum 5] + 1
  /\ requests (exec (sqlite_yielding [] (VNum 0))
                 (Sqlite.single ["select * from contents where id = "; ""] [VNum 5]) tt)
     = [ {| Sqlite.source := VStr "select * from contents where id = ?";
            Sqlite.how := Sqlite.MGet;
            Sqlite.args := Sqlite.Packed [VNum 5] |} ].
Proof.
  split; [reflexivity|].
  exact (proj1 (proj1 (proj2 (@sqlite_template_requests
                                ["select * from contents where id = "; ""] [VNum 5]
                                eq_refl (sqlite_yielding [] (VNum 0)) tt)))).
Defined.

(** ** Driver failures and driver counts *)








(** ** Templates whose fragments and values do not match *)

Lemma pg_parseTemplate_loop_any (strings : list string) :
  forall vars i s acc,
    Postgres.parseTemplate_loop strings vars i (VStr s) acc
    = {| sql := VStr (s ++ weave_items numbered strings i (List.length vars));
         values := (acc ++ vars)%list |}.
Proof.
  induction vars as [|v vars IH]; intros i s acc.
  - simpl. now rewrite append_nil_r, app_nil_r.
  - cbn [Postgres.parseTemplate_loop List.length weave_items]. rewrite IH.
    cbn [to_string]. unfold numbered at 2. now rewrite !append_assoc, <- app_assoc.
Qed.

Lemma sqlite_parseTemplate_loop_any (strings : list string) :
  forall vars i s acc,
    Sqlite.parseTemplate_loop strings vars i (VStr s) acc
    = {| sql := VStr (s ++ weave_items positional strings i (List.length vars));
         values := (acc ++ vars)%list |}.
Proof.
  induction vars as [|v vars IH]; intros i s acc.
  - simpl. now rewrite append_nil_r, app_nil_r.
  - cbn [Sqlite.parseTemplate_loop List.length weave_items]. rewrite IH.
    cbn [to_string]. unfold positional at 2. now rewrite !append_assoc, <- app_assoc.
Qed.

Lemma pg_parseTemplate_closed (strings : list string) (vars : list value) :
  Postgres.parseTemplate strings vars
  = {| sql := match vars with
              | [] => item strings 0
              | _ :: _ =>
                  VStr (to_string (item strings 0)
                          ++ weave_items numbered strings 0 (List.length vars))
              end;
       values := vars |}.
Proof.
  unfold Postgres.parseTemplate. destruct vars as [|v vars]; [reflexivity|].
  cbn [Postgres.parseTemplate_loop]. rewrite pg_parseTemplate_loop_any.
  cbn [List.length weave_items]. unfold numbered at 2.
  now rewrite !append_assoc.
Qed.

Lemma sqlite_parseTemplate_closed (strings : list string) (vars : list value) :
  Sqlite.parseTemplate strings vars
  = {| sql := match vars with
              | [] => item strings 0
              | _ :: _ =>
                  VStr (to_string (item strings 0)
                          ++ weave_items positional strings 0 (List.length vars))
              end;
       values := vars |}.
Proof.
  unfold Sqlite.parseTemplate. destruct vars as [|v vars]; [reflexivity|].
  cbn [Sqlite.parseTemplate_loop]. rewrite sqlite_parseTemplate_loop_any.
  cbn [List.length weave_items]. unfold positional at 2.
  now rewrite !append_assoc.
Qed.

Lemma item_firstn (strings : list string) (m j : nat) :
  j < m -> item (firstn m strings) j = item strings j.
Proof.
  intros Hj. unfold item. rewrite nth_error_firstn.
  now destruct (Nat.ltb_spec j m); [|lia].
Qed.

Lemma weave_items_firstn (placeholder : nat -> string) (strings : list string) (m : nat) :
  forall n i,
    i + n < m ->
    weave_items placeholder (firstn m strings) i n = weave_items placeholder strings i n.
Proof.
  induction n as [|n IH]; intros i Hi; [reflexivity|].
  cbn [weave_items]. rewrite item_firstn by lia. now rewrite IH by lia.
Qed.

(** [parseTemplate] on any fragments and values, in both dialects: the
    values come back unchanged; with no value the text is [strings[0]] as it
    is, [undefined] included; otherwise each round appends its placeholder
    and the next fragment, a missing fragment reading as the text
    [undefined]; and fragments beyond the first [len(vars)+1] are never
    read. *)
Theorem parseTemplate_any_shape (strings : list string) (vars : list value) :
  let text placeholder :=
    match vars with
    | [] => item strings 0
    | _ :: _ =>
        VStr (to_string (item strings 0)
                ++ weave_items placeholder strings 0 (List.length vars))
    end in
  (Postgres.parseTemplate strings vars = {| sql := text numbered; values := vars |}
   /\ Sqlite.parseTemplate strings vars = {| sql := text positional; values := vars |})
  /\ (Postgres.parseTemplate strings vars
      = Postgres.parseTemplate (firstn (List.length vars + 1) strings) vars
      /\ Sqlite.parseTemplate strings vars
         = Sqlite.parseTemplate (firstn (List.length vars + 1) strings) vars)
  /\ (forall f0 v w,
         Postgres.parseTemplate [f0] [v; w]
         = {| sql := VStr (f0 ++ "$1undefined$2undefined"); values := [v; w] |}
         /\ Sqlite.parseTemplate [] [v]
            = {| sql := VStr "undefined?undefined"; values := [v] |}).
Proof.
  intros text. split; [|split].
  - split; [apply pg_parseTemplate_closed | apply sqlite_parseTemplate_closed].
  - rewrite !pg_parseTemplate_closed, !sqlite_parseTemplate_closed.
    destruct vars as [|v vars].
    + now rewrite item_firstn by (simpl; lia).
    + rewrite item_firstn by lia.
      now rewrite !weave_items_firstn by lia.
  - intros f0 v w. split; [|reflexivity].
    rewrite pg_parseTemplate_closed. reflexivity.
Qed.

(** ** Placeholder numbers are never reused *)






(** ** Which keys a multi-row insert reads *)

(** A multi-row [insert] reads the keys of the first row only: two sequences
    that start with the same row and whose later rows carry the same values
    submit the same statement, whatever the later rows' keys are. *)
Theorem insert_reads_keys_of_first_row (table : string) (row0 : obj)
  (rows rows' : list obj) :
  map Object_values rows = map Object_values rows' ->
  (forall (d : Driver Postgres.pg) (s : backend d),
      requests (exec d (Postgres.insert table (Many (row0 :: rows))) s)
      = requests (exec d (Postgres.insert table (Many (row0 :: rows'))) s))
  /\ (forall (d : Driver Sqlite.sqlite) (s : backend d),
      requests (exec d (Sqlite.insert table (Many (row0 :: rows))) s)
      = requests (exec d (Sqlite.insert table (Many (row0 :: rows'))) s)).
Proof.
  intros Hvalues.
  assert (Hlen : List.length rows = List.length rows').
  { rewrite <- (length_map Object_values rows), Hvalues. apply length_map. }
  split; intros d s.
  - rewrite !pg_insert_many_requests. cbn [List.length map]. now rewrite Hlen, Hvalues.
  - rewrite !sqlite_insert_many_requests. cbn [List.length map]. now rewrite Hlen, Hvalues.
Qed.

Lemma insert_reads_keys_of_first_row_witness :
  map Object_values [[("title", VStr "hi")]] = map Object_values [[("body", VStr "hi")]]
  /\ requests (exec (pg_yielding [] (VNum 2))
                 (Postgres.insert "contents"
                    (Many [[("title", VStr "hello")]; [("body", VStr "hi")]])) tt)
     = [ {| Postgres.text := VStr "INSERT INTO contents (title) VALUES ($1), ($2)";
            Postgres.params := [VStr "hello"; VStr "hi"] |} ].
Proof.
  split; [reflexivity|].
  exact (eq_trans
           (eq_sym (proj1 (@insert_reads_keys_of_first_row "contents"
                             [("title", VStr "hello")]
                             [[("title", VStr "hi")]] [[("body", VStr "hi")]] eq_refl)
                      (pg_yielding [] (VNum 2)) tt))
           eq_refl).
Defined.

(** ** Placeholders and bound values agree in number *)

Section Markers.

Variable c : ascii.

Lemma occurrences_in_cons (x : string) (xs : list string) :
  occurrences_in c (x :: xs) = occurrences c x + occurrences_in c xs.
Proof. reflexivity. Qed.

Lemma occurrences_join (sep : string) (xs : list string) :
  occurrences c sep = 0 ->
  occurrences c (join sep xs) = occurrences_in c xs.
Proof.
  intros Hsep. unfold join.
  induction xs as [|x [|y xs] IH].
  - reflexivity.
  - rewrite occurrences_in_cons. cbn [String.concat]. unfold occurrences_in. simpl. lia.
  - change (String.concat sep (x :: y :: xs)) with (x ++ sep ++ String.concat sep (y :: xs)).
    rewrite !occurrences_append, Hsep, IH.
    now rewrite (occurrences_in_cons x (y :: xs)).
Qed.

Lemma occurrences_in_assign (placeholder : nat -> string) :
  occurrences c " = " = 0 ->
  (forall i, occurrences c (placeholder i) = 1) ->
  forall keys start,
    occurrences_in c (assign placeholder start keys) = occurrences_in c keys + List.length keys.
Proof.
  intros Heq Hph keys.
  induction keys as [|key keys IH]; intros start; [reflexivity|].
  cbn [assign List.length].
  rewrite !occurrences_in_cons, !occurrences_append, Heq, Hph, IH. lia.
Qed.

Lemma occurrences_in_ones (tokens : list string) :
  Forall (fun t => occurrences c t = 1) tokens ->
  occurrences_in c tokens = List.length tokens.
Proof.
  induction 1 as [|t tokens Ht _ IH]; [reflexivity|].
  rewrite occurrences_in_cons, Ht, IH. reflexivity.
Qed.

Lemma occurrences_groups (groups : list (list string)) (k : nat) :
  occurrences c "(" = 0 -> occurrences c ", " = 0 -> occurrences c ")" = 0 ->
  Forall (fun g => occurrences_in c g = k) groups ->
  occurrences_in c (map group groups) = List.length groups * k.
Proof.
  intros Hopen Hsep Hclose Hall.
  induction Hall as [|g groups Hg _ IH]; [reflexivity|].
  cbn [map List.length]. rewrite occurrences_in_cons, IH. unfold group.
  rewrite !occurrences_append, occurrences_join, Hopen, Hclose, Hg by exact Hsep.
  simpl. lia.
Qed.

End Markers.

Lemma numbered_groups_ones (n k : nat) :
  Forall (fun g => occurrences_in "$" g = k) (numbered_groups n k).
Proof.
  unfold numbered_groups. apply Forall_map, Forall_forall. intros i _.
  rewrite occurrences_in_ones.
  - now rewrite length_map, length_seq.
  - apply Forall_map, Forall_forall. intros j _. apply occurrences_numbered.
Qed.

Lemma positional_groups_ones (n k : nat) :
  Forall (fun g => occurrences_in "?" g = k) (positional_groups n k).
Proof.
  unfold positional_groups. apply Forall_forall. intros g Hg.
  apply repeat_spec in Hg. subst g.
  rewrite occurrences_in_ones.
  - apply repeat_length.
  - apply Forall_forall. intros t Ht. apply repeat_spec in Ht. now subst t.
Qed.

Lemma occurrences_insert_text (c : ascii) (table : string) (columns : list string)
  (groups : list (list string)) (k : nat) :
  c = "$"%char \/ c = "?"%char ->
  occurrences c table = 0 ->
  occurrences_in c columns = 0 ->
  Forall (fun g => occurrences_in c g = k) groups ->
  occurrences c (insert_text table columns groups) = List.length groups * k.
Proof.
  intros Hc Htable Hcolumns Hgroups. unfold insert_text.
  rewrite !occurrences_append, Htable.
  rewrite !occurrences_join, Hcolumns by (destruct Hc; subst c; reflexivity).
  rewrite (@occurrences_groups c groups k)
    by (try exact Hgroups; destruct Hc; subst c; reflexivity).
  destruct Hc; subst c; reflexivity.
Qed.

Lemma occurrences_update_text (c : ascii) (placeholder : nat -> string) (table : string)
  (dataKeys whereKeys : list string) (start : nat) :
  c = "$"%char \/ c = "?"%char ->
  (forall i, occurrences c (placeholder i) = 1) ->
  occurrences c table = 0 ->
  occurrences_in c dataKeys = 0 ->
  occurrences_in c whereKeys = 0 ->
  occurrences c (update_text table (assign placeholder 0 dataKeys)
                   (assign placeholder start whereKeys))
  = List.length dataKeys + List.length whereKeys.
Proof.
  intros Hc Hph Htable Hdata Hwhere. unfold update_text.
  rewrite !occurrences_append, Htable.
  rewrite !occurrences_join by (destruct Hc; subst c; reflexivity).
  rewrite !occurrences_in_assign, Hdata, Hwhere
    by (try exact Hph; destruct Hc; subst c; reflexivity).
  destruct Hc; subst c; reflexivity.
Qed.

Lemma occurrences_select_text (c : ascii) (placeholder : nat -> string)
  (select and_ : string) (table where_kw : string) (keys : list string) :
  (forall i, occurrences c (placeholder i) = 1) ->
  occurrences c " = " = 0 ->
  occurrences c select = 0 -> occurrences c where_kw = 0 -> occurrences c and_ = 0 ->
  occurrences c table = 0 ->
  occurrences_in c keys = 0 ->
  occurrences c (select ++ table ++ where_kw ++ join and_ (assign placeholder 0 keys))
  = List.length keys.
Proof.
  intros Hph Heq Hselect Hwhere Hand Htable Hkeys.
  rewrite !occurrences_append, Hselect, Hwhere, Htable.
  rewrite occurrences_join by exact Hand.
  now rewrite occurrences_in_assign, Hkeys by assumption.
Qed.

Lemma marker_free_spec (s : string) :
  marker_free s = true -> occurrences "$" s = 0 /\ occurrences "?" s = 0.
Proof.
  unfold marker_free. intros H. apply andb_prop in H as [H1 H2].
  now apply Nat.eqb_eq in H1, H2.
Qed.

Lemma marker_free_all (xs : list string) :
  forallb marker_free xs = true -> occurrences_in "$" xs = 0 /\ occurrences_in "?" xs = 0.
Proof.
  induction xs as [|x xs IH]; [now split|].
  cbn [forallb]. intros H. apply andb_prop in H as [Hx Hxs].
  destruct (marker_free_spec x Hx) as [H1 H2], (IH Hxs) as [H3 H4].
  rewrite !occurrences_in_cons. lia.
Qed.

Lemma length_keys (o : obj) : List.length (Object_keys o) = List.length o.
Proof. apply length_map. Qed.

Lemma length_values (o : obj) : List.length (Object_values o) = List.length o.
Proof. apply length_map. Qed.

(** When the table name and the keys hold no placeholder character, every
    statement of the single-row builders is balanced: [get], [list],
    [update] and the single-row [insert] submit a text with exactly as many
    placeholders as they bind values, in both dialects. *)
Theorem builders_balanced (table : string) (where_ data : obj) :
  marker_free table = true ->
  forallb marker_free (Object_keys where_) = true ->
  forallb marker_free (Object_keys data) = true ->
  (forall (d : Driver Postgres.pg) (s : backend d),
      forallb pg_balanced (requests (exec d (Postgres.get table where_) s)) = true
      /\ forallb pg_balanced (requests (exec d (Postgres.list table where_) s)) = true
      /\ forallb pg_balanced (requests (exec d (Postgres.update table where_ data) s)) = true
      /\ forallb pg_balanced (requests (exec d (Postgres.insert table (Single data)) s))
         = true)
  /\ (forall (d : Driver Sqlite.sqlite) (s : backend d),
      forallb sqlite_balanced (requests (exec d (Sqlite.get table where_) s)) = true
      /\ forallb sqlite_balanced (requests (exec d (Sqlite.list table where_) s)) = true
      /\ forallb sqlite_balanced (requests (exec d (Sqlite.update table where_ data) s))
         = true
      /\ forallb sqlite_balanced (requests (exec d (Sqlite.insert table (Single data)) s))
         = true).
Proof.
  intros Htable Hwhere Hdata.
  destruct (marker_free_spec table Htable) as [Ht1 Ht2].
  destruct (marker_free_all _ Hwhere) as [Hw1 Hw2].
  destruct (marker_free_all _ Hdata) as [Hd1 Hd2].
  split; intros d s.
  - rewrite pg_get_requests, pg_list_requests, pg_update_requests, pg_insert_single_requests.
    cbn [forallb pg_balanced Postgres.text Postgres.params].
    rewrite (@occurrences_select_text "$" numbered "SELECT * FROM " " AND " table " WHERE ")
      by (try assumption; try reflexivity; exact occurrences_numbered).
    rewrite (@occurrences_update_text "$" numbered table)
      by (try assumption; try (now left); exact occurrences_numbered).
    rewrite (@occurrences_insert_text "$" table (Object_keys data) _
               (List.length (Object_keys data)))
      by (try assumption; try (now left); exact (numbered_groups_ones 1 _)).
    rewrite length_app, !length_keys, !length_values. cbn [List.length].
    rewrite Nat.mul_1_l, !Nat.eqb_refl. now repeat split.
  - rewrite sqlite_get_requests, sqlite_list_requests, sqlite_update_requests,
      sqlite_insert_single_requests.
    cbn [forallb sqlite_balanced Sqlite.source Sqlite.args bound_values].
    rewrite (@occurrences_select_text "?" positional "select * from " " and " table " where ")
      by (try assumption; reflexivity).
    rewrite (@occurrences_update_text "?" positional table)
      by (try assumption; try (now right); reflexivity).
    rewrite (@occurrences_insert_text "?" table (Object_keys data) _
               (List.length (Object_keys data)))
      by (try assumption; try (now right); exact (positional_groups_ones 1 _)).
    rewrite length_app, !length_keys, !length_values. cbn [List.length].
    rewrite Nat.mul_1_l, !Nat.eqb_refl. now repeat split.
Qed.

Lemma builders_balanced_witness :
  marker_free "contents" = true
  /\ forallb marker_free (Object_keys [("id", VNum 5)]) = true
  /\ forallb marker_free (Object_keys [("title", VStr "what?"); ("body", VStr "$5")]) = true
  /\ forallb pg_balanced
       (requests (exec (pg_yielding [] (VNum 1))
                    (Postgres.update "contents" [("id", VNum 5)]
                       [("title", VStr "what?"); ("body", VStr "$5")]) tt))
     = true.
Proof.
  split; [reflexivity|]. split; [reflexivity|]. split; [reflexivity|].
  exact (proj1 (proj2 (proj2 (proj1 (@builders_balanced "contents" [("id", VNum 5)]
                                       [("title", VStr "what?"); ("body", VStr "$5")]
                                       eq_refl eq_refl eq_refl)
                                (pg_yielding [] (VNum 1)) tt)))).
Defined.

(** Under the same condition on the table name and the first row's keys, the
    statement of a multi-row [insert] is balanced exactly when the rows hold,
    taken together, as many properties as there are rows times the keys of
    the first row; rows that share the first row's keys always do. *)
Theorem insert_many_balanced_iff (table : string) (row0 : obj) (rows : list obj) :
  marker_free table = true ->
  forallb marker_free (Object_keys row0) = true ->
  let data := row0 :: rows in
  let even :=
    Nat.eqb (List.length data * List.length row0)
            (list_sum (map (fun row : obj => List.length row) data)) in
  (forall (d : Driver Postgres.pg) (s : backend d),
      forallb pg_balanced (requests (exec d (Postgres.insert table (Many data)) s)) = even)
  /\ (forall (d : Driver Sqlite.sqlite) (s : backend d),
      forallb sqlite_balanced (requests (exec d (Sqlite.insert table (Many data)) s)) = even)
  /\ (Forall (fun row => Object_keys row = Object_keys row0) rows -> even = true).
Proof.
  intros Htable Hkeys data even.
  destruct (marker_free_spec table Htable) as [Ht1 Ht2].
  destruct (marker_free_all _ Hkeys) as [Hk1 Hk2].
  assert (Hbound : List.length (concat (map Object_values data))
                   = list_sum (map (fun row : obj => List.length row) data)).
  { rewrite length_concat, map_map. f_equal. apply map_ext. intros row. apply length_values. }
  split; [|split].
  - intros d s. unfold data. rewrite pg_insert_many_requests. fold data.
    cbn [forallb pg_balanced Postgres.text Postgres.params].
    rewrite (@occurrences_insert_text "$" table (Object_keys row0) _
               (List.length (Object_keys row0)))
      by (try assumption; try (now left); apply numbered_groups_ones).
    unfold numbered_groups at 1. rewrite length_map, length_seq, length_keys, Hbound.
    apply Bool.andb_true_r.
  - intros d s. unfold data. rewrite sqlite_insert_many_requests. fold data.
    cbn [forallb sqlite_balanced Sqlite.source Sqlite.args bound_values].
    rewrite (@occurrences_insert_text "?" table (Object_keys row0) _
               (List.length (Object_keys row0)))
      by (try assumption; try (now right); apply positional_groups_ones).
    unfold positional_groups at 1. rewrite repeat_length, length_keys, Hbound.
    apply Bool.andb_true_r.
  - intros Hshared. unfold even. apply Nat.eqb_eq.
    assert (Hall : Forall (fun row : obj => List.length row = List.length row0) data).
    { constructor; [reflexivity|]. eapply Forall_impl; [|exact Hshared].
      intros row Hrow. cbn beta in Hrow.
      now rewrite <- (length_keys row), Hrow, length_keys. }
    clear -Hall. induction Hall as [|row data Hrow _ IH]; [reflexivity|].
    simpl in *. rewrite Hrow. lia.
Qed.

Lemma insert_many_balanced_iff_witness :
  marker_free "t" = true
  /\ forallb marker_free (Object_keys [("a", VNum 1)]) = true
  /\ forallb pg_balanced
       (requests (exec (pg_yielding [] (VNum 2))
                    (Postgres.insert "t"
                       (Many [[("a", VNum 1)]; [("b", VNum 2); ("c", VNum 3)]])) tt))
     = false.
Proof.
  split; [reflexivity|]. split; [reflexivity|].
  exact (proj1 (@insert_many_balanced_iff "t" [("a", VNum 1)]
                  [[("b", VNum 2); ("c", VNum 3)]] eq_refl eq_refl)
           (pg_yielding [] (VNum 2)) tt).
Defined.
